(** * makeindex: package-name and version grammars of the apt repository index

    A shallow embedding of [server/containers/aptrepo/makeindex.py]:
    the two compiled patterns [slot_regexp] and [version_regexp], the
    function [parse_version] and the body of the per-package loop of [main].

    Python strings are modelled as lists of characters.  Both patterns are
    compiled with [re.A], so character classes only ever accept ASCII
    characters and every other code point behaves like any character outside
    the classes.  Python integers are modelled by [Z]; the interpreter's
    optional limit on the length of decimal literals is not modelled. *)

From Stdlib Require Import String.
From Stdlib Require Import List Ascii ZArith Lia Bool Arith.
From Stdlib Require Import Decimal DecimalString DecimalPos DecimalN.
Import ListNotations.
Open Scope list_scope.

Set Implicit Arguments.

(** ** Strings *)

Definition str := list ascii.

Notation "$ s" := (list_ascii_of_string s%string)
  (at level 1, format "$ s").

Fixpoint str_eqb (a b : str) : bool :=
  match a, b with
  | [], [] => true
  | x :: a', y :: b' => Ascii.eqb x y && str_eqb a' b'
  | _, _ => false
  end.

(** [strip_prefix l s] is [Some rest] when [s = l ++ rest]. *)
Fixpoint strip_prefix (l s : str) : option str :=
  match l with
  | [] => Some s
  | x :: l' =>
      match s with
      | y :: s' => if Ascii.eqb x y then strip_prefix l' s' else None
      | [] => None
      end
  end.

(** ** The backtracking matcher

    Python's [re] explores the alternatives of a pattern in priority order
    (greedy repeats try one more iteration first, lazy repeats try to stop
    first, alternations go left to right) and reports the first complete
    match.  The matcher below is written in continuation-passing style: the
    continuation is the rest of the pattern, and a failing continuation
    makes the matcher fall back to the next alternative, with the capture
    groups of the abandoned attempt forgotten. *)

Inductive regex : Type :=
| Chars (p : ascii -> bool)        (* one character of a class *)
| Lit (l : str)                    (* a literal string *)
| Cat (r1 r2 : regex)              (* r1 r2 *)
| Alt (r1 r2 : regex)              (* r1|r2 *)
| Opt (r : regex)                  (* r? *)
| Star (r : regex)                 (* r* *)
| StarLazy (r : regex)             (* r*? *)
| Group (i : nat) (r : regex).     (* capturing group number i *)

(** [r+] is [r] followed by [r*]. *)
Definition Plus (r : regex) : regex := Cat r (Star r).

(** Capture groups: the most recent binding of a group number wins. *)
Definition caps := list (nat * str).

Fixpoint group (i : nat) (c : caps) : option str :=
  match c with
  | [] => None
  | (j, w) :: c' => if Nat.eqb i j then Some w else group i c'
  end.

Definition set_group (i : nat) (w : str) (c : caps) : caps := (i, w) :: c.

(** The characters of [s] that precede its suffix [s']. *)
Definition consumed (s s' : str) : str := firstn (length s - length s') s.

Definition orelse {A} (a b : option A) : option A :=
  match a with
  | Some x => Some x
  | None => b
  end.

Section Exec.
Variable A : Type.

Definition cont := str -> caps -> option A.

(** An iteration of a repeat only counts when it consumed something. *)
Definition progress (s : str) (k : cont) : cont :=
  fun s' c' => if length s' <? length s then k s' c' else None.

(** The repeat loops, over the matcher [body] of the repeated pattern.
    The counter starts at the length of the subject: every iteration that
    counts consumes a character, so it never runs out before the subject
    does (see [star_loop_fuel]). *)
Fixpoint star_loop (body : str -> caps -> cont -> option A) (k : cont)
    (n : nat) (s : str) (c : caps) : option A :=
  match n with
  | O => k s c
  | S n' => orelse (body s c (progress s (star_loop body k n'))) (k s c)
  end.

Fixpoint lazy_loop (body : str -> caps -> cont -> option A) (k : cont)
    (n : nat) (s : str) (c : caps) : option A :=
  match n with
  | O => k s c
  | S n' => orelse (k s c) (body s c (progress s (lazy_loop body k n')))
  end.

Fixpoint exec (r : regex) (s : str) (c : caps) (k : cont) : option A :=
  match r with
  | Chars p =>
      match s with
      | x :: s' => if p x then k s' c else None
      | [] => None
      end
  | Lit l =>
      match strip_prefix l s with
      | Some s' => k s' c
      | None => None
      end
  | Cat r1 r2 => exec r1 s c (fun s1 c1 => exec r2 s1 c1 k)
  | Alt r1 r2 => orelse (exec r1 s c k) (exec r2 s c k)
  | Opt r1 => orelse (exec r1 s c k) (k s c)
  | Star r1 => star_loop (exec r1) k (length s) s c
  | StarLazy r1 => lazy_loop (exec r1) k (length s) s c
  | Group i r1 =>
      exec r1 s c (fun s' c' => k s' (set_group i (consumed s s') c'))
  end.
End Exec.

(** [$] without [re.M]: the end of the subject, or just before a newline
    that ends the subject. *)
Definition newline : ascii := "010"%char.

Definition at_end (s : str) : bool :=
  match s with
  | [] => true
  | [x] => Ascii.eqb x newline
  | _ => false
  end.

(** [pattern.match(s)] for a pattern of the form [^ body $]: the match is
    attempted at the start of the subject only, where [^] holds. *)
Definition re_match (body : regex) (s : str) : option caps :=
  exec body s [] (fun s' c' => if at_end s' then Some c' else None).

(** ** Character classes under [re.A] *)

Definition in_range (lo hi : nat) (x : ascii) : bool :=
  let n := nat_of_ascii x in (lo <=? n) && (n <=? hi).

Definition is_digit (x : ascii) : bool := in_range 48 57 x.
Definition is_upper (x : ascii) : bool := in_range 65 90 x.
Definition is_lower (x : ascii) : bool := in_range 97 122 x.
Definition is_alpha (x : ascii) : bool := is_lower x || is_upper x.
Definition is_word (x : ascii) : bool :=
  is_alpha x || is_digit x || Ascii.eqb x "_"%char.
Definition is_lower_alnum (x : ascii) : bool := is_lower x || is_digit x.

(** ** The two patterns *)

(** The name pattern, written with spaces between its parts:
    [^ ( \w+ (?: - [a-zA-Z]* )*? ) (?: - ( \d+ (?: - (?:alpha|beta|rc) \d+ )? (?: -dev \d+ )? ) )? $] *)
Definition basename_re : regex :=
  Cat (Plus (Chars is_word))
      (StarLazy (Cat (Lit $"-") (Star (Chars is_alpha)))).

Definition slot_re : regex :=
  Cat (Plus (Chars is_digit))
 (Cat (Opt (Cat (Lit $"-")
           (Cat (Alt (Lit $"alpha") (Alt (Lit $"beta") (Lit $"rc")))
                (Plus (Chars is_digit)))))
      (Opt (Cat (Lit $"-dev") (Plus (Chars is_digit))))).

Definition slot_regexp : regex :=
  Cat (Group 1 basename_re) (Opt (Cat (Lit $"-") (Group 2 slot_re))).

(** Group numbers of [version_regexp], in the order of their opening
    parentheses; group 4 is the unnamed group inside [pre_l]. *)
Definition g_release := 1.
Definition g_pre := 2.
Definition g_pre_l := 3.
Definition g_pre_n := 5.
Definition g_dev := 6.
Definition g_dev_l := 7.
Definition g_dev_n := 8.
Definition g_local := 9.

Definition stage_tags : regex :=
  Alt (Lit $"a") (Alt (Lit $"b") (Alt (Lit $"c") (Alt (Lit $"rc")
  (Alt (Lit $"alpha") (Alt (Lit $"beta") (Alt (Lit $"pre") (Lit $"preview"))))))).

Definition release_re : regex :=
  Group g_release
    (Cat (Plus (Chars is_digit))
         (Star (Cat (Lit $".") (Plus (Chars is_digit))))).

Definition pre_re : regex :=
  Group g_pre
    (Cat (Opt (Lit $"-"))
    (Cat (Group g_pre_l (Group 4 stage_tags))
    (Cat (Opt (Lit $"."))
         (Opt (Group g_pre_n (Plus (Chars is_digit))))))).

Definition dev_re : regex :=
  Group g_dev
    (Cat (Opt (Lit $"."))
    (Cat (Group g_dev_l (Lit $"dev"))
    (Cat (Opt (Lit $"."))
         (Opt (Group g_dev_n (Plus (Chars is_digit))))))).

Definition local_re : regex :=
  Cat (Lit $"+")
      (Group g_local
         (Cat (Plus (Chars is_lower_alnum))
              (Star (Cat (Lit $".") (Plus (Chars is_lower_alnum)))))).

Definition version_regexp : regex :=
  Cat release_re (Cat (Opt pre_re) (Cat (Opt dev_re) (Opt local_re))).

(** ** Python values and exceptions *)

Inductive py_error : Type :=
| ValueError (msg : str)
| TypeError
| IndexError
| AttributeError.

Inductive result (A : Type) : Type :=
| Ok (a : A)
| Raise (e : py_error).

Arguments Ok {A} a.
Arguments Raise {A} e.

Definition bind {A B} (m : result A) (f : A -> result B) : result B :=
  match m with
  | Ok a => f a
  | Raise e => Raise e
  end.

Notation "x <- m ;; f" := (bind m (fun x => f))
  (at level 61, m at next level, right associativity).

Fixpoint mapM {A B} (f : A -> result B) (l : list A) : result (list B) :=
  match l with
  | [] => Ok []
  | x :: l' => y <- f x ;; ys <- mapM f l' ;; Ok (y :: ys)
  end.

(** Truth value of [m.group(...)]: [None] and the empty string are false. *)
Definition truthy (o : option str) : bool :=
  match o with
  | Some (_ :: _) => true
  | _ => false
  end.

(** [x in {a, b}] for a value that is a string or [None]. *)
Definition opt_in (o : option str) (l : list str) : bool :=
  match o with
  | Some w => existsb (str_eqb w) l
  | None => false
  end.

(** [str(x)] for a value that is a string or [None]. *)
Definition py_str (o : option str) : str :=
  match o with
  | Some w => w
  | None => $"None"
  end.

Definition digit_val (x : ascii) : Z := Z.of_nat (nat_of_ascii x) - 48.

Definition decimal (w : str) : Z :=
  fold_left (fun acc x => (10 * acc + digit_val x)%Z) w 0%Z.

(** [int(x)] for a value that is a string or [None].  Only plain runs of
    ASCII digits are read as numbers, which is all the version grammar can
    capture (see [parse_version_errors]); signs, blanks and underscores,
    which [int] also accepts, are not modelled and count as invalid. *)
Definition py_int (o : option str) : result Z :=
  match o with
  | None => Raise TypeError
  | Some w =>
      if negb (Nat.eqb (length w) 0) && forallb is_digit w
      then Ok (decimal w)
      else Raise (ValueError ($"invalid literal for int() with base 10: " ++ w))
  end.

(** [s.split(sep)] for a one-character separator. *)
Fixpoint split_on (sep : ascii) (s : str) : list str :=
  match s with
  | [] => [[]]
  | x :: s' =>
      if Ascii.eqb x sep then [] :: split_on sep s'
      else match split_on sep s' with
           | h :: t => (x :: h) :: t
           | [] => [[x]]
           end
  end.

(** [l[i]] *)
Definition index {A} (l : list A) (i : nat) : result A :=
  match nth_error l i with
  | Some a => Ok a
  | None => Raise IndexError
  end.

(** [s.rpartition(sep)] for a one-character separator: [rfind_split]
    looks for the last separator. *)
Fixpoint rfind_split (sep : ascii) (s : str) : option (str * str) :=
  match s with
  | [] => None
  | x :: s' =>
      match rfind_split sep s' with
      | Some (h, t) => Some (x :: h, t)
      | None => if Ascii.eqb x sep then Some ([], s') else None
      end
  end.

Definition rpartition (sep : ascii) (s : str) : str * str * str :=
  match rfind_split sep s with
  | Some (h, t) => (h, [sep], t)
  | None => ([], [], s)
  end.

(** ** parse_version *)

Record Version : Type := mkVersion {
  major : Z;
  minor : Z;
  patch : Z;
  prerelease : option str;
  prerelease_no : Z;
  metadata : list str
}.

Definition cannot_parse (ver : str) : py_error :=
  ValueError ($"cannot parse version: " ++ ver).

Definition cannot_determine_stage (ver : str) : py_error :=
  ValueError ($"cannot determine release stage from " ++ ver).

(** The [if pre / elif dev / else] part: stage, ordinal and the metadata
    collected so far. *)
Definition parse_stage (ver : str) (v : caps)
  : result (option str * Z * list str) :=
  if truthy (group g_pre v) then
    let pre_l := group g_pre_l v in
    prerelease <-
      (if opt_in pre_l [$"a"; $"alpha"] then Ok $"alpha"
       else if opt_in pre_l [$"b"; $"beta"] then Ok $"beta"
       else if opt_in pre_l [$"c"; $"rc"] then Ok $"rc"
       else Raise (cannot_determine_stage ver)) ;;
    prerelease_no <- py_int (group g_pre_n v) ;;
    Ok (Some prerelease, prerelease_no,
        if truthy (group g_dev v)
        then [$"dev" ++ py_str (group g_dev_n v)]
        else [])
  else if truthy (group g_dev v) then
    prerelease_no <- py_int (group g_dev_n v) ;;
    Ok (Some $"dev", prerelease_no, [])
  else
    Ok (None, 0%Z, []).

Definition parse_groups (ver : str) (v : caps) : result Version :=
  st <- parse_stage ver v ;;
  let '(prerelease, prerelease_no, metadata) := st in
  let metadata :=
    match group g_local v with
    | Some (x :: w) => metadata ++ split_on "."%char (x :: w)
    | _ => metadata
    end in
  release <-
    match group g_release v with
    | Some w => mapM py_int (map Some (split_on "."%char w))
    | None => Raise AttributeError
    end ;;
  major <- index release 0 ;;
  minor <- index release 1 ;;
  patch <- (if Nat.eqb (length release) 3 then index release 2 else Ok 0%Z) ;;
  Ok (mkVersion major minor patch prerelease prerelease_no metadata).

Definition parse_version (ver : str) : result Version :=
  match re_match version_regexp ver with
  | None => Raise (cannot_parse ver)
  | Some v => parse_groups ver v
  end.

(** ** The body of the package loop of main *)

Record entry : Type := mkEntry {
  basename : option str;
  slot : option str;
  name : str;
  version : str;
  parsed_version : Version;
  revision : str;
  architecture : str;
  installref : str
}.

(** The name split of the loop body: the printed lines, then the values
    bound to [basename] and [slot]. *)
Definition split_name (pkgname : str) : list str * (option str * option str) :=
  match re_match slot_regexp pkgname with
  | None => ([$"cannot parse package name: " ++ pkgname], (Some pkgname, None))
  | Some m => ([], (group 1 m, group 2 m))
  end.

Definition rewrite_arch (arch : str) : str :=
  if str_eqb arch $"amd64" then $"x86_64" else arch.

(** One iteration, from the three fields of a line on: what it prints, and
    the entry appended to the index or the exception that ends the run. *)
Definition index_entry (arch pkgname pkgver : str) : list str * result entry :=
  let '(relver, _, revver) := rpartition "-"%char pkgver in
  let '(printed, (basename, slot)) := split_name pkgname in
  let arch := rewrite_arch arch in
  (printed,
   pv <- parse_version relver ;;
   Ok (mkEntry basename slot pkgname relver pv revver arch
         (pkgname ++ $"=" ++ relver ++ $"-" ++ revver))).

(** [c.isspace()] for the code points below 256, the characters that
    [line.strip()] removes. *)
Definition is_space (x : ascii) : bool :=
  let n := nat_of_ascii x in
  ((9 <=? n) && (n <=? 13)) || ((28 <=? n) && (n <=? 32))
  || Nat.eqb n 133 || Nat.eqb n 160.

Definition nul : ascii := "000"%char.

(** [arch, pkgname, pkgver = line.split(NUL)] *)
Definition unpack3 (fields : list str) : result (str * str * str) :=
  match fields with
  | [arch; pkgname; pkgver] => Ok (arch, pkgname, pkgver)
  | [] => Raise (ValueError $"not enough values to unpack (expected 3, got 0)")
  | [_] => Raise (ValueError $"not enough values to unpack (expected 3, got 1)")
  | [_; _] => Raise (ValueError $"not enough values to unpack (expected 3, got 2)")
  | _ => Raise (ValueError $"too many values to unpack (expected 3)")
  end.

(** The loop over the lines of one distribution's listing: blank lines are
    skipped, and the first exception ends the run. *)
Fixpoint index_lines (lines : list str) : list str * result (list entry) :=
  match lines with
  | [] => ([], Ok [])
  | line :: lines' =>
      if forallb is_space line then index_lines lines'
      else
        match unpack3 (split_on nul line) with
        | Raise e => ([], Raise e)
        | Ok (arch, pkgname, pkgver) =>
            let '(printed, r) := index_entry arch pkgname pkgver in
            match r with
            | Raise e => (printed, Raise e)
            | Ok e =>
                let '(printed', r') := index_lines lines' in
                (printed ++ printed', es <- r' ;; Ok (e :: es))
            end
        end
  end.

Definition build_index (stdout : str) : list str * result (list entry) :=
  index_lines (split_on newline stdout).

(** The lines of a listing that the loop does not skip. *)
Definition rows (lines : list str) : list str :=
  filter (fun line => negb (forallb is_space line)) lines.

(** [s.partition(sep)] for a one-character separator: [find_split] looks
    for the first separator. *)
Fixpoint find_split (sep : ascii) (s : str) : option (str * str) :=
  match s with
  | [] => None
  | x :: s' =>
      if Ascii.eqb x sep then Some ([], s')
      else match find_split sep s' with
           | Some (h, t) => Some (x :: h, t)
           | None => None
           end
  end.

Definition partition (sep : ascii) (s : str) : str * str * str :=
  match find_split sep s with
  | Some (h, t) => (h, [sep], t)
  | None => (s, [], [])
  end.

(** The first loop of main: the distribution names of the reference dump,
    one for each line that is not blank, taken before the first vertical
    bar.  The source collects them in a set, whose order is not specified;
    here they are listed once each, and only membership is used. *)
Definition dist_of_line (line : str) : str :=
  fst (fst (partition "|"%char line)).

Definition dists (stdout : str) : list str :=
  nodup (list_eq_dec ascii_dec)
        (map dist_of_line (rows (split_on newline stdout))).

(** ** What a match means

    [den r w c c'] says that the pattern [r] can match exactly the word
    [w], turning the capture groups [c] into [c'].  It is the declarative
    reading of a pattern, against which the matcher is proved sound. *)

Inductive iter (M : str -> caps -> caps -> Prop) : str -> caps -> caps -> Prop :=
| iter_nil : forall c, iter M [] c c
| iter_cons : forall w1 w2 c c1 c2,
    M w1 c c1 -> iter M w2 c1 c2 -> iter M (w1 ++ w2) c c2.

Fixpoint den (r : regex) (w : str) (c c' : caps) : Prop :=
  match r with
  | Chars p => exists x, w = [x] /\ p x = true /\ c' = c
  | Lit l => w = l /\ c' = c
  | Cat r1 r2 =>
      exists w1 w2 c1, w = w1 ++ w2 /\ den r1 w1 c c1 /\ den r2 w2 c1 c'
  | Alt r1 r2 => den r1 w c c' \/ den r2 w c c'
  | Opt r1 => den r1 w c c' \/ (w = [] /\ c' = c)
  | Star r1 => iter (den r1) w c c'
  | StarLazy r1 => iter (den r1) w c c'
  | Group i r1 => exists c1, den r1 w c c1 /\ c' = set_group i w c1
  end.

(** A non-empty run of ASCII digits. *)
Definition is_number (w : str) : bool :=
  negb (Nat.eqb (length w) 0) && forallb is_digit w.

(** [sep.join(l)] for a one-character separator. *)
Fixpoint join (sep : ascii) (l : list str) : str :=
  match l with
  | [] => []
  | [w] => w
  | w :: l' => w ++ sep :: join sep l'
  end.

(** The spellings the grammar accepts as a stage tag, and those the stage
    mapping of [parse_version] knows. *)
Definition grammar_tags : list str :=
  [$"a"; $"b"; $"c"; $"rc"; $"alpha"; $"beta"; $"pre"; $"preview"].

Definition mapped_tags : list str :=
  [$"a"; $"alpha"; $"b"; $"beta"; $"c"; $"rc"].

Definition canonical_tag (tag : str) : str :=
  if existsb (str_eqb tag) [$"a"; $"alpha"] then $"alpha"
  else if existsb (str_eqb tag) [$"b"; $"beta"] then $"beta"
  else $"rc".

Definition is_some {A} (o : option A) : bool :=
  match o with
  | Some _ => true
  | None => false
  end.

Definition is_ok {A} (r : result A) : bool :=
  match r with
  | Ok _ => true
  | Raise _ => false
  end.

(** Properties of a matcher [body] used to reason about the repeats: it
    only depends on the behaviour of its continuation, it fails when its
    continuation always fails, and it is sound for a relation [M]. *)
Definition ext_body {A} (body : str -> caps -> cont A -> option A) : Prop :=
  forall s c k1 k2, (forall s' c', k1 s' c' = k2 s' c') ->
                    body s c k1 = body s c k2.

Definition fail_body {A} (body : str -> caps -> cont A -> option A) : Prop :=
  forall s c k, (forall s' c', k s' c' = None) -> body s c k = None.

Definition sound_body {A} (body : str -> caps -> cont A -> option A)
    (M : str -> caps -> caps -> Prop) : Prop :=
  forall s c k a, body s c k = Some a ->
    exists w s' c', s = w ++ s' /\ M w c c' /\ k s' c' = Some a.

(** Patterns without capturing groups. *)
Fixpoint no_groups (r : regex) : bool :=
  match r with
  | Chars _ | Lit _ => true
  | Cat r1 r2 | Alt r1 r2 => no_groups r1 && no_groups r2
  | Opt r1 | Star r1 | StarLazy r1 => no_groups r1
  | Group _ _ => false
  end.

(** ** The groups of a version match, by parts

    A [shape] lists what a successful match of [version_regexp] found: the
    release segments; for the pre-release marker its text, its stage tag and
    its ordinal; for the development marker its text and its ordinal; the
    local part after the plus sign. *)
Record shape : Type := mkShape {
  sh_release : list str;
  sh_pre : option (str * str * option str);
  sh_dev : option (str * option str);
  sh_local : option str
}.

Definition ordinal_caps (i : nat) (n : option str) : caps :=
  match n with
  | Some w => [(i, w)]
  | None => []
  end.

Definition pre_caps (p : option (str * str * option str)) : caps :=
  match p with
  | Some (w, tag, n) =>
      (g_pre, w) :: ordinal_caps g_pre_n n ++ [(g_pre_l, tag); (4, tag)]
  | None => []
  end.

Definition dev_caps (d : option (str * option str)) : caps :=
  match d with
  | Some (w, n) => (g_dev, w) :: ordinal_caps g_dev_n n ++ [(g_dev_l, $"dev")]
  | None => []
  end.

Definition local_caps (l : option str) : caps :=
  match l with
  | Some w => [(g_local, w)]
  | None => []
  end.

Definition shape_caps (sh : shape) : caps :=
  local_caps (sh_local sh) ++ dev_caps (sh_dev sh) ++ pre_caps (sh_pre sh)
  ++ [(g_release, join "."%char (sh_release sh))].

Definition opt_text (o : option str) : str :=
  match o with
  | Some w => w
  | None => []
  end.

(** The text a shape was read from, up to the final newline. *)
Definition shape_text (sh : shape) : str :=
  join "."%char (sh_release sh)
  ++ opt_text (option_map (fun p => fst (fst p)) (sh_pre sh))
  ++ opt_text (option_map fst (sh_dev sh))
  ++ match sh_local sh with
     | Some w => "+"%char :: w
     | None => []
     end.

Definition wf_ordinal (n : option str) : Prop :=
  match n with
  | Some w => is_number w = true
  | None => True
  end.

Definition optional (l w : str) : Prop := w = [] \/ w = l.

Definition wf_pre (p : option (str * str * option str)) : Prop :=
  match p with
  | Some (w, tag, n) =>
      In tag grammar_tags /\ wf_ordinal n /\
      exists hy dot, optional $"-" hy /\ optional $"." dot /\
                     w = hy ++ tag ++ dot ++ opt_text n
  | None => True
  end.

Definition wf_dev (d : option (str * option str)) : Prop :=
  match d with
  | Some (w, n) =>
      wf_ordinal n /\
      exists dot1 dot2, optional $"." dot1 /\ optional $"." dot2 /\
                        w = dot1 ++ $"dev" ++ dot2 ++ opt_text n
  | None => True
  end.

Definition wf_local (l : option str) : Prop :=
  match l with
  | Some w => w <> []
  | None => True
  end.

Definition wf_shape (sh : shape) : Prop :=
  sh_release sh <> [] /\
  Forall (fun w => is_number w = true) (sh_release sh) /\
  wf_pre (sh_pre sh) /\ wf_dev (sh_dev sh) /\ wf_local (sh_local sh).

(** The subject does not go on with a character of the class. *)
Definition stops (p : ascii -> bool) (s : str) : Prop :=
  match s with
  | [] => True
  | x :: _ => p x = false
  end.

(** ** Reading a version match through its groups *)

(** Whether the stage part of [parse_version] goes through: a pre-release
    marker needs a stage tag the mapping knows and an ordinal, a development
    marker on its own needs an ordinal. *)
Definition stage_convertible (v : caps) : bool :=
  if truthy (group g_pre v) then
    opt_in (group g_pre_l v) mapped_tags && is_some (group g_pre_n v)
  else if truthy (group g_dev v) then is_some (group g_dev_n v)
  else true.

(** The dot-separated segments of the release group. *)
Definition release_segments (v : caps) : list str :=
  match group g_release v with
  | Some w => split_on "."%char w
  | None => []
  end.

(** The dot-separated segments of the local part. *)
Definition local_segments (v : caps) : list str :=
  match group g_local v with
  | Some w => split_on "."%char w
  | None => []
  end.

(** The positional reading of the release numbers. *)
Definition release_fields (nums : list Z) : result (Z * Z * Z) :=
  match nums with
  | a :: b :: rest => Ok (a, b, match rest with [c] => c | _ => 0%Z end)
  | _ => Raise IndexError
  end.

(** What is known of the groups of a successful version match: [segs] are
    the release segments, [pre_l] and the ordinals are set only together
    with their marker. *)
Definition pre_groups_ok (v : caps) : Prop :=
  (group g_pre v = None /\ group g_pre_l v = None /\ group g_pre_n v = None) \/
  (exists w tag, group g_pre v = Some w /\ truthy (Some w) = true /\
                 group g_pre_l v = Some tag /\ In tag grammar_tags /\
                 wf_ordinal (group g_pre_n v) /\
                 exists hy dot, optional $"-" hy /\ optional $"." dot /\
                                w = hy ++ tag ++ dot ++ opt_text (group g_pre_n v)).

Definition dev_groups_ok (v : caps) : Prop :=
  (group g_dev v = None /\ group g_dev_n v = None) \/
  (exists w, group g_dev v = Some w /\ truthy (Some w) = true /\
             wf_ordinal (group g_dev_n v) /\
             exists dot1 dot2, optional $"." dot1 /\ optional $"." dot2 /\
                               w = dot1 ++ $"dev" ++ dot2
                                   ++ opt_text (group g_dev_n v)).

Definition local_group_ok (v : caps) : Prop :=
  group g_local v = None \/
  (exists x w, group g_local v = Some (x :: w)).

Definition groups_ok (ver : str) (v : caps) (segs : list str) : Prop :=
  segs <> [] /\ Forall (fun w => is_number w = true) segs /\
  group g_release v = Some (join "."%char segs) /\
  (exists rest, ver = join "."%char segs ++ rest) /\
  pre_groups_ok v /\ dev_groups_ok v /\ local_group_ok v.

(** The release version and the revision that the loop body splits a
    version-with-revision string into. *)
Definition relver_of (pkgver : str) : str := fst (fst (rpartition "-"%char pkgver)).
Definition revver_of (pkgver : str) : str := snd (rpartition "-"%char pkgver).

(** A name split that loses nothing of the name. *)
Definition faithful_split (pkgname : str) (b : option str) (s : option str)
  : Prop :=
  exists b', b = Some b' /\
             pkgname = b' ++ match s with
                             | Some sl => "-"%char :: sl
                             | None => []
                             end.

(** The decimal numeral of a natural number, as [str(n)] writes it. *)
Definition numeral (n : N) : str :=
  list_ascii_of_string (NilZero.string_of_uint (N.to_uint n)).

(** ** Syntactic conditions on patterns *)

(** A pattern that may match the empty word. *)
Fixpoint nullable (r : regex) : bool :=
  match r with
  | Chars _ => false
  | Lit l => Nat.eqb (length l) 0
  | Cat r1 r2 => nullable r1 && nullable r2
  | Alt r1 r2 => nullable r1 || nullable r2
  | Opt _ | Star _ | StarLazy _ => true
  | Group _ r1 => nullable r1
  end.

(** Every repeat of the pattern is over a pattern that consumes
    something, so that the progress test of the repeat loops never fires. *)
Fixpoint repeats_consume (r : regex) : bool :=
  match r with
  | Chars _ | Lit _ => true
  | Cat r1 r2 | Alt r1 r2 => repeats_consume r1 && repeats_consume r2
  | Opt r1 | Group _ r1 => repeats_consume r1
  | Star r1 | StarLazy r1 => negb (nullable r1) && repeats_consume r1
  end.

(** No part of the pattern accepts the character [x]. *)
Fixpoint avoids (x : ascii) (r : regex) : bool :=
  match r with
  | Chars p => negb (p x)
  | Lit l => negb (existsb (Ascii.eqb x) l)
  | Cat r1 r2 | Alt r1 r2 => avoids x r1 && avoids x r2
  | Opt r1 | Star r1 | StarLazy r1 | Group _ r1 => avoids x r1
  end.

(** ** The two grammars, spelled out *)

(** A non-empty run of characters of a class. *)
Definition is_run (p : ascii -> bool) (w : str) : bool :=
  negb (Nat.eqb (length w) 0) && forallb p w.

(** An ordinal that may be missing. *)
Definition opt_number (n : str) : Prop := n = [] \/ is_number n = true.

Definition pre_marker (w : str) : Prop :=
  exists hy tag dot n,
    optional $"-" hy /\ In tag grammar_tags /\ optional $"." dot /\
    opt_number n /\ w = hy ++ tag ++ dot ++ n.

Definition dev_marker (w : str) : Prop :=
  exists dot1 dot2 n,
    optional $"." dot1 /\ optional $"." dot2 /\ opt_number n /\
    w = dot1 ++ $"dev" ++ dot2 ++ n.

Definition local_part (w : str) : Prop :=
  exists segs,
    segs <> [] /\ Forall (fun x => is_run is_lower_alnum x = true) segs /\
    w = "+"%char :: join "."%char segs.

(** The strings that the version grammar accepts: a release of
    dot-separated numbers, then the optional pre-release marker, development
    marker and local part, then at most one newline. *)
Definition version_string (ver : str) : Prop :=
  exists segs pre dev loc nl,
    segs <> [] /\ Forall (fun w => is_number w = true) segs /\
    (pre = [] \/ pre_marker pre) /\ (dev = [] \/ dev_marker dev) /\
    (loc = [] \/ local_part loc) /\ (nl = [] \/ nl = [newline]) /\
    ver = join "."%char segs ++ pre ++ dev ++ loc ++ nl.

(** A basename: a run of word characters, then any number of hyphens each
    followed by letters only. *)
Definition basename_string (b : str) : Prop :=
  exists w parts,
    is_run is_word w = true /\
    Forall (fun x => forallb is_alpha x = true) parts /\
    b = w ++ concat (map (cons "-"%char) parts).

(** A slot: a number, optionally a hyphen with a stage name and a number,
    optionally [-dev] with a number. *)
Definition slot_string (sl : str) : Prop :=
  exists n stage devp,
    is_number n = true /\
    (stage = [] \/
     exists t m, In t [$"alpha"; $"beta"; $"rc"] /\ is_number m = true /\
                 stage = $"-" ++ t ++ m) /\
    (devp = [] \/ exists m, is_number m = true /\ devp = $"-dev" ++ m) /\
    sl = n ++ stage ++ devp.

Definition name_string (pkgname : str) : Prop :=
  exists b suffix nl,
    basename_string b /\
    (suffix = [] \/ exists sl, slot_string sl /\ suffix = "-"%char :: sl) /\
    (nl = [] \/ nl = [newline]) /\
    pkgname = b ++ suffix ++ nl.

(** The characters that can occur in a name the name grammar accepts. *)
Definition name_char (x : ascii) : bool := is_word x || Ascii.eqb x "-"%char.

(** What the loop body prints and binds when a name is not parsed. *)
Definition fallback (pkgname : str) : list str * (option str * option str) :=
  ([$"cannot parse package name: " ++ pkgname], (Some pkgname, None)).

(** The five values of the [prerelease] field. *)
Definition stages : list (option str) :=
  [None; Some $"alpha"; Some $"beta"; Some $"rc"; Some $"dev"].

(** Whether a pattern has a capturing group number [i]. *)
Fixpoint sets_group (i : nat) (r : regex) : bool :=
  match r with
  | Chars _ | Lit _ => false
  | Cat r1 r2 | Alt r1 r2 => sets_group i r1 || sets_group i r2
  | Opt r1 | Star r1 | StarLazy r1 => sets_group i r1
  | Group j r1 => Nat.eqb i j || sets_group i r1
  end.

(** The metadata token of the development marker, present only when a
    pre-release marker matched too. *)
Definition dev_token (v : caps) : list str :=
  if truthy (group g_pre v) && truthy (group g_dev v)
  then [$"dev" ++ py_str (group g_dev_n v)]
  else [].

(** [index_lines] on two runs of lines, one after the other. *)
Definition then_lines (first second : list str * result (list entry))
  : list str * result (list entry) :=
  match snd first with
  | Raise e => (fst first, Raise e)
  | Ok es1 =>
      (fst first ++ fst second, es2 <- snd second ;; Ok (es1 ++ es2))
  end.

(** The line of a listing that an entry was made from, given the
    architecture label of the line. *)
Definition line_of (arch : str) (e : entry) : str :=
  arch ++ nul :: name e ++ nul :: version e ++ $"-" ++ revision e.

(** The two optional parts of [slot_re], by name. *)
Definition stage_re : regex :=
  Cat (Lit $"-")
      (Cat (Alt (Lit $"alpha") (Alt (Lit $"beta") (Lit $"rc")))
           (Plus (Chars is_digit))).

Definition devnum_re : regex := Cat (Lit $"-dev") (Plus (Chars is_digit)).

(** ** Basic facts about strings *)

Lemma str_eqb_eq (a b : str) : str_eqb a b = true <-> a = b.
Proof.
  revert b; induction a as [|x a IH]; intros [|y b]; simpl;
    try (split; congruence).
  rewrite andb_true_iff, Ascii.eqb_eq, IH.
  split; [intros [-> ->]; reflexivity | intros H; inversion H; auto].
Qed.

Lemma str_eqb_refl (a : str) : str_eqb a a = true.
Proof. apply str_eqb_eq; reflexivity. Qed.

Lemma strip_prefix_app (l s : str) : strip_prefix l (l ++ s) = Some s.
Proof.
  induction l as [|x l IH]; simpl; [reflexivity|].
  rewrite Ascii.eqb_refl; exact IH.
Qed.

Lemma strip_prefix_inv (l s s' : str) :
  strip_prefix l s = Some s' -> s = l ++ s'.
Proof.
  revert s; induction l as [|x l IH]; intros s; simpl.
  - intros H; inversion H; reflexivity.
  - destruct s as [|y s]; [discriminate|].
    destruct (Ascii.eqb x y) eqn:E; [|discriminate].
    apply Ascii.eqb_eq in E; subst y.
    intros H; rewrite (IH _ H); reflexivity.
Qed.

Lemma consumed_app (w s' : str) : consumed (w ++ s') s' = w.
Proof.
  unfold consumed. rewrite length_app.
  replace (length w + length s' - length s') with (length w) by lia.
  rewrite firstn_app, Nat.sub_diag, firstn_all; simpl.
  apply app_nil_r.
Qed.

(** ** The matcher and its continuation *)

Section ExecFacts.
Variable A : Type.
Implicit Types (k : cont A) (r : regex) (s : str) (c : caps).

Lemma progress_ext s k1 k2 :
  (forall s' c', k1 s' c' = k2 s' c') ->
  forall s' c', progress s k1 s' c' = progress s k2 s' c'.
Proof. intros H s' c'; unfold progress; rewrite H; reflexivity. Qed.

Lemma star_loop_ext body k1 k2 n s c :
  ext_body (A:=A) body -> (forall s' c', k1 s' c' = k2 s' c') ->
  star_loop body k1 n s c = star_loop body k2 n s c.
Proof.
  intros Hb Hk; revert s c; induction n as [|n IH]; intros s c; simpl.
  - apply Hk.
  - rewrite Hk. f_equal. apply Hb, progress_ext, IH.
Qed.

Lemma lazy_loop_ext body k1 k2 n s c :
  ext_body (A:=A) body -> (forall s' c', k1 s' c' = k2 s' c') ->
  lazy_loop body k1 n s c = lazy_loop body k2 n s c.
Proof.
  intros Hb Hk; revert s c; induction n as [|n IH]; intros s c; simpl.
  - apply Hk.
  - rewrite Hk. f_equal. apply Hb, progress_ext, IH.
Qed.

Lemma exec_ext r : ext_body (exec (A:=A) r).
Proof.
  induction r as [p|l|r1 IH1 r2 IH2|r1 IH1 r2 IH2|r1 IH1|r1 IH1|r1 IH1|i r1 IH1];
    intros s c k1 k2 Hk; simpl.
  - destruct s as [|x s]; [reflexivity|]. destruct (p x); auto.
  - destruct (strip_prefix l s); auto.
  - apply IH1; intros; apply IH2; assumption.
  - rewrite (IH1 _ _ _ _ Hk), (IH2 _ _ _ _ Hk); reflexivity.
  - rewrite (IH1 _ _ _ _ Hk), Hk; reflexivity.
  - apply star_loop_ext; assumption.
  - apply lazy_loop_ext; assumption.
  - apply IH1; intros; apply Hk.
Qed.

Lemma star_loop_fail body k n s c :
  fail_body (A:=A) body -> (forall s' c', k s' c' = None) ->
  star_loop body k n s c = None.
Proof.
  intros Hb Hk; revert s c; induction n as [|n IH]; intros s c; simpl.
  - apply Hk.
  - rewrite Hk, Hb; [reflexivity|].
    intros s' c'; unfold progress; rewrite IH; destruct (_ <? _); reflexivity.
Qed.

Lemma lazy_loop_fail body k n s c :
  fail_body (A:=A) body -> (forall s' c', k s' c' = None) ->
  lazy_loop body k n s c = None.
Proof.
  intros Hb Hk; revert s c; induction n as [|n IH]; intros s c; simpl.
  - apply Hk.
  - rewrite Hk, Hb; [reflexivity|].
    intros s' c'; unfold progress; rewrite IH; destruct (_ <? _); reflexivity.
Qed.

Lemma exec_fail r : fail_body (exec (A:=A) r).
Proof.
  induction r as [p|l|r1 IH1 r2 IH2|r1 IH1 r2 IH2|r1 IH1|r1 IH1|r1 IH1|i r1 IH1];
    intros s c k Hk; simpl.
  - destruct s as [|x s]; [reflexivity|]. destruct (p x); auto.
  - destruct (strip_prefix l s); auto.
  - apply IH1; intros; apply IH2; assumption.
  - rewrite (IH1 _ _ _ Hk), (IH2 _ _ _ Hk); reflexivity.
  - rewrite (IH1 _ _ _ Hk), Hk; reflexivity.
  - apply star_loop_fail; assumption.
  - apply lazy_loop_fail; assumption.
  - apply IH1; intros; apply Hk.
Qed.

(** The counter of a repeat never runs out before the subject does. *)
Lemma star_loop_fuel body k n s c :
  ext_body (A:=A) body -> fail_body (A:=A) body -> length s <= n ->
  star_loop body k (S n) s c = star_loop body k n s c.
Proof.
  intros He Hf; revert s c; induction n as [|n IH]; intros s c Hn.
  - simpl. rewrite Hf; [reflexivity|].
    intros s' c'; unfold progress.
    destruct (length s' <? length s) eqn:E; [|reflexivity].
    apply Nat.ltb_lt in E; lia.
  - change (orelse (body s c (progress s (star_loop body k (S n)))) (k s c)
            = orelse (body s c (progress s (star_loop body k n))) (k s c)).
    f_equal. apply He. intros s' c'; unfold progress.
    destruct (length s' <? length s) eqn:E; [|reflexivity].
    apply Nat.ltb_lt in E. apply IH; lia.
Qed.

Lemma lazy_loop_fuel body k n s c :
  ext_body (A:=A) body -> fail_body (A:=A) body -> length s <= n ->
  lazy_loop body k (S n) s c = lazy_loop body k n s c.
Proof.
  intros He Hf; revert s c; induction n as [|n IH]; intros s c Hn.
  - simpl. rewrite Hf; [destruct (k s c); reflexivity|].
    intros s' c'; unfold progress.
    destruct (length s' <? length s) eqn:E; [|reflexivity].
    apply Nat.ltb_lt in E; lia.
  - change (orelse (k s c) (body s c (progress s (lazy_loop body k (S n))))
            = orelse (k s c) (body s c (progress s (lazy_loop body k n)))).
    f_equal. apply He. intros s' c'; unfold progress.
    destruct (length s' <? length s) eqn:E; [|reflexivity].
    apply Nat.ltb_lt in E. apply IH; lia.
Qed.

Lemma star_loop_enough body k n s c :
  ext_body (A:=A) body -> fail_body (A:=A) body -> length s <= n ->
  star_loop body k n s c = star_loop body k (length s) s c.
Proof.
  intros He Hf Hn. induction Hn as [|n Hn IH]; [reflexivity|].
  rewrite star_loop_fuel; assumption.
Qed.

Lemma lazy_loop_enough body k n s c :
  ext_body (A:=A) body -> fail_body (A:=A) body -> length s <= n ->
  lazy_loop body k n s c = lazy_loop body k (length s) s c.
Proof.
  intros He Hf Hn. induction Hn as [|n Hn IH]; [reflexivity|].
  rewrite lazy_loop_fuel; assumption.
Qed.

(** The equations of the two repeats. *)
Lemma exec_star r s c k :
  exec (Star r) s c k
  = orelse (exec r s c (progress s (fun s' c' => exec (Star r) s' c' k)))
           (k s c).
Proof.
  simpl. destruct s as [|x s].
  - simpl. rewrite (exec_fail r); [reflexivity|].
    intros s' c'; unfold progress; simpl; reflexivity.
  - change (length (x :: s)) with (S (length s)).
    change (orelse (exec r (x :: s) c
                      (progress (x :: s) (star_loop (exec r) k (length s))))
              (k (x :: s) c) = orelse
              (exec r (x :: s) c
                 (progress (x :: s)
                    (fun s' c' => star_loop (exec r) k (length s') s' c')))
              (k (x :: s) c)).
    f_equal. apply exec_ext. intros s' c'; unfold progress.
    destruct (length s' <? length (x :: s)) eqn:E; [|reflexivity].
    apply Nat.ltb_lt in E; simpl in E.
    apply star_loop_enough; [apply exec_ext|apply exec_fail|lia].
Qed.

Lemma exec_star_lazy r s c k :
  exec (StarLazy r) s c k
  = orelse (k s c)
      (exec r s c (progress s (fun s' c' => exec (StarLazy r) s' c' k))).
Proof.
  simpl. destruct s as [|x s].
  - simpl. rewrite (exec_fail r); [destruct (k [] c); reflexivity|].
    intros s' c'; unfold progress; simpl; reflexivity.
  - change (length (x :: s)) with (S (length s)).
    change (orelse (k (x :: s) c)
              (exec r (x :: s) c
                 (progress (x :: s) (lazy_loop (exec r) k (length s))))
            = orelse (k (x :: s) c)
              (exec r (x :: s) c
                 (progress (x :: s)
                    (fun s' c' => lazy_loop (exec r) k (length s') s' c')))).
    f_equal. apply exec_ext. intros s' c'; unfold progress.
    destruct (length s' <? length (x :: s)) eqn:E; [|reflexivity].
    apply Nat.ltb_lt in E; simpl in E.
    apply lazy_loop_enough; [apply exec_ext|apply exec_fail|lia].
Qed.
End ExecFacts.

(** ** Soundness of the matcher *)

Section Soundness.
Variable A : Type.

Lemma orelse_some (x y : option A) a :
  orelse x y = Some a -> x = Some a \/ y = Some a.
Proof. destruct x; simpl; auto. Qed.

Lemma progress_some s (k : cont A) s' c' a :
  progress s k s' c' = Some a -> k s' c' = Some a.
Proof. unfold progress; destruct (_ <? _); [auto|discriminate]. Qed.

Lemma star_loop_den body M k n s c a :
  sound_body (A:=A) body M -> star_loop body k n s c = Some a ->
  exists w s' c', s = w ++ s' /\ iter M w c c' /\ k s' c' = Some a.
Proof.
  intros Hb; revert s c; induction n as [|n IH]; intros s c H; simpl in H.
  - exists [], s, c; repeat split; [constructor|assumption].
  - apply orelse_some in H as [H|H].
    + apply Hb in H as (w1 & s1 & c1 & -> & HM & H).
      apply progress_some, IH in H as (w2 & s2 & c2 & -> & Hi & H).
      exists (w1 ++ w2), s2, c2; rewrite app_assoc; repeat split; auto.
      econstructor; eassumption.
    + exists [], s, c; repeat split; [constructor|assumption].
Qed.

Lemma lazy_loop_den body M k n s c a :
  sound_body (A:=A) body M -> lazy_loop body k n s c = Some a ->
  exists w s' c', s = w ++ s' /\ iter M w c c' /\ k s' c' = Some a.
Proof.
  intros Hb; revert s c; induction n as [|n IH]; intros s c H; simpl in H.
  - exists [], s, c; repeat split; [constructor|assumption].
  - apply orelse_some in H as [H|H].
    + exists [], s, c; repeat split; [constructor|assumption].
    + apply Hb in H as (w1 & s1 & c1 & -> & HM & H).
      apply progress_some, IH in H as (w2 & s2 & c2 & -> & Hi & H).
      exists (w1 ++ w2), s2, c2; rewrite app_assoc; repeat split; auto.
      econstructor; eassumption.
Qed.

Lemma exec_sound r : sound_body (exec (A:=A) r) (den r).
Proof.
  induction r as [p|l|r1 IH1 r2 IH2|r1 IH1 r2 IH2|r1 IH1|r1 IH1|r1 IH1|i r1 IH1];
    intros s c k a H; simpl in H.
  - destruct s as [|x s]; [discriminate|].
    destruct (p x) eqn:E; [|discriminate].
    exists [x], s, c; simpl; eauto 6.
  - destruct (strip_prefix l s) as [s'|] eqn:E; [|discriminate].
    apply strip_prefix_inv in E.
    exists l, s', c; simpl; auto.
  - apply IH1 in H as (w1 & s1 & c1 & -> & H1 & H).
    apply IH2 in H as (w2 & s2 & c2 & -> & H2 & H).
    exists (w1 ++ w2), s2, c2; rewrite app_assoc; simpl; eauto 9.
  - apply orelse_some in H as [H|H].
    + apply IH1 in H as (w & s' & c' & -> & H1 & H).
      exists w, s', c'; simpl; auto.
    + apply IH2 in H as (w & s' & c' & -> & H2 & H).
      exists w, s', c'; simpl; auto.
  - apply orelse_some in H as [H|H].
    + apply IH1 in H as (w & s' & c' & -> & H1 & H).
      exists w, s', c'; simpl; auto.
    + exists [], s, c; simpl; auto.
  - eapply star_loop_den; eassumption.
  - eapply lazy_loop_den; eassumption.
  - apply IH1 in H as (w & s' & c' & -> & H1 & H).
    rewrite consumed_app in H.
    exists w, s', (set_group i w c'); simpl; eauto.
Qed.
End Soundness.

Lemma at_end_inv (s : str) : at_end s = true -> s = [] \/ s = [newline].
Proof.
  destruct s as [|x [|y s]]; simpl; auto; [|discriminate].
  intros H; apply Ascii.eqb_eq in H; subst; auto.
Qed.

(** A successful [match] splits the subject into the matched word and
    the optional final newline that [$] tolerates. *)
Lemma re_match_sound (r : regex) (s : str) (v : caps) :
  re_match r s = Some v ->
  exists w nl, s = w ++ nl /\ (nl = [] \/ nl = [newline]) /\ den r w [] v.
Proof.
  unfold re_match; intros H.
  apply exec_sound in H as (w & s' & c' & -> & Hd & H).
  destruct (at_end s') eqn:E; [|discriminate].
  inversion H; subst. exists w, s'; auto using at_end_inv.
Qed.

(** ** Reading the parts of the patterns *)

Lemma iter_chars (p : ascii -> bool) w c c' :
  iter (den (Chars p)) w c c' -> forallb p w = true /\ c' = c.
Proof.
  induction 1 as [|w1 w2 c c1 c2 (x & -> & Hp & ->) _ [IH ->]]; [auto|].
  simpl; rewrite Hp, IH; auto.
Qed.

Lemma den_plus_chars (p : ascii -> bool) w c c' :
  den (Plus (Chars p)) w c c' ->
  negb (Nat.eqb (length w) 0) && forallb p w = true /\ c' = c.
Proof.
  intros (w1 & w2 & c1 & -> & (x & -> & Hp & ->) & Hi).
  apply iter_chars in Hi as [Hi ->]. simpl; rewrite Hp, Hi; auto.
Qed.

Lemma den_number w c c' :
  den (Plus (Chars is_digit)) w c c' -> is_number w = true /\ c' = c.
Proof. apply den_plus_chars. Qed.

Lemma iter_no_groups (M : str -> caps -> caps -> Prop) w c c' :
  (forall w c c', M w c c' -> c' = c) -> iter M w c c' -> c' = c.
Proof.
  intros HM; induction 1 as [|w1 w2 c c1 c2 H1 _ IH]; [reflexivity|].
  rewrite IH; eauto.
Qed.

Lemma den_no_groups r : no_groups r = true ->
  forall w c c', den r w c c' -> c' = c.
Proof.
  induction r as [p|l|r1 IH1 r2 IH2|r1 IH1 r2 IH2|r1 IH1|r1 IH1|r1 IH1|i r1 IH1];
    simpl; intros Hn w c c' H.
  - destruct H as (x & _ & _ & ->); reflexivity.
  - destruct H as [_ ->]; reflexivity.
  - apply andb_true_iff in Hn as [H1 H2].
    destruct H as (w1 & w2 & c1 & _ & Ha & Hb).
    rewrite (IH2 H2 _ _ _ Hb); eauto.
  - apply andb_true_iff in Hn as [H1 H2]. destruct H; eauto.
  - destruct H as [H|[_ ->]]; eauto.
  - eapply iter_no_groups; eauto.
  - eapply iter_no_groups; eauto.
  - discriminate.
Qed.

Lemma join_cons (sep : ascii) (w : str) (l : list str) :
  join sep (w :: l) = w ++ concat (map (cons sep) l).
Proof.
  revert w; induction l as [|w' l IH]; intros w.
  - simpl; rewrite app_nil_r; reflexivity.
  - change (join sep (w :: w' :: l)) with (w ++ sep :: join sep (w' :: l)).
    rewrite IH; reflexivity.
Qed.

Lemma iter_dotted_numbers w c c' :
  iter (den (Cat (Lit $".") (Plus (Chars is_digit)))) w c c' ->
  c' = c /\ exists segs, Forall (fun x => is_number x = true) segs /\
                         w = concat (map (cons "."%char) segs).
Proof.
  induction 1 as [|w1 w2 c c1 c2 H1 _ (-> & segs & Hs & ->)].
  - split; [reflexivity|]. exists []; auto.
  - destruct H1 as (a & b & c0 & -> & [-> ->] & Hn).
    apply den_number in Hn as [Hn ->].
    split; [reflexivity|]. exists (b :: segs); split; [auto|reflexivity].
Qed.

Lemma den_release_re w c c' :
  den release_re w c c' ->
  exists segs, segs <> [] /\ Forall (fun x => is_number x = true) segs /\
               w = join "."%char segs /\ c' = (g_release, w) :: c.
Proof.
  intros (c1 & (w1 & w2 & c2 & -> & H1 & H2) & ->).
  apply den_number in H1 as [H1 ->].
  apply iter_dotted_numbers in H2 as (-> & segs & Hs & ->).
  exists (w1 :: segs); rewrite join_cons; repeat split; auto; discriminate.
Qed.

Lemma den_stage_tags w c c' :
  den stage_tags w c c' -> In w grammar_tags /\ c' = c.
Proof.
  unfold stage_tags, grammar_tags; simpl.
  intros H; repeat (destruct H as [H|H]); destruct H as [-> ->]; auto 10.
Qed.

Lemma den_opt_lit l w c c' :
  den (Opt (Lit l)) w c c' -> optional l w /\ c' = c.
Proof.
  unfold optional; simpl; intros [[-> ->]|[-> ->]]; auto.
Qed.

Lemma den_opt_ordinal i w c c' :
  den (Opt (Group i (Plus (Chars is_digit)))) w c c' ->
  exists n, wf_ordinal n /\ w = opt_text n /\ c' = ordinal_caps i n ++ c.
Proof.
  intros [(c1 & H & ->)|[-> ->]].
  - apply den_number in H as [H ->]. exists (Some w); auto.
  - exists None; simpl; auto.
Qed.

Lemma den_pre_re w c c' :
  den pre_re w c c' ->
  exists tag n, wf_pre (Some (w, tag, n)) /\
                c' = pre_caps (Some (w, tag, n)) ++ c.
Proof.
  intros (c1 & (hy & w1 & c2 & -> & Hhy & tag & w2 & c3 & -> & Htag
               & dot & num & c4 & -> & Hdot & Hn) & ->).
  apply den_opt_lit in Hhy as [Hhy ->].
  destruct Htag as (c5 & (c6 & Htag & ->) & ->).
  apply den_stage_tags in Htag as [Htag ->].
  apply den_opt_lit in Hdot as [Hdot ->].
  apply den_opt_ordinal in Hn as (n & Hn & -> & ->).
  exists tag, n; split.
  - simpl; repeat split; auto. exists hy, dot; auto.
  - simpl. rewrite <- app_assoc; reflexivity.
Qed.

Lemma den_dev_re w c c' :
  den dev_re w c c' ->
  exists n, wf_dev (Some (w, n)) /\ c' = dev_caps (Some (w, n)) ++ c.
Proof.
  intros (c1 & (d1 & w1 & c2 & -> & Hd1 & l & w2 & c3 & -> & Hl
               & d2 & num & c4 & -> & Hd2 & Hn) & ->).
  apply den_opt_lit in Hd1 as [Hd1 ->].
  destruct Hl as (c5 & [-> ->] & ->).
  apply den_opt_lit in Hd2 as [Hd2 ->].
  apply den_opt_ordinal in Hn as (n & Hn & -> & ->).
  exists n; split.
  - simpl; split; auto. exists d1, d2; auto.
  - simpl. rewrite <- app_assoc; reflexivity.
Qed.

Lemma den_local_re w c c' :
  den local_re w c c' ->
  exists loc, w = "+"%char :: loc /\ loc <> [] /\ c' = (g_local, loc) :: c.
Proof.
  intros (p & loc & c1 & -> & [-> ->] & c2 & H & ->).
  exists loc; split; [reflexivity|].
  assert (c2 = c) as -> by (eapply den_no_groups; [|exact H]; reflexivity).
  split; [|reflexivity].
  destruct H as (w1 & w2 & c3 & -> & H1 & _).
  apply den_plus_chars in H1 as [H1 _].
  destruct w1; [discriminate H1|discriminate].
Qed.

(** Every successful match of the version pattern has a well-formed shape. *)
Lemma den_version_regexp w v :
  den version_regexp w [] v ->
  exists sh, wf_shape sh /\ v = shape_caps sh /\ w = shape_text sh.
Proof.
  intros (wr & w1 & c1 & -> & Hr & wp & w2 & c2 & -> & Hp
          & wd & wl & c3 & -> & Hd & Hl).
  apply den_release_re in Hr as (segs & Hne & Hs & -> & ->).
  assert (exists p, wf_pre p /\ c2 = pre_caps p ++ [(g_release, join "."%char segs)]
                    /\ wp = opt_text (option_map (fun p => fst (fst p)) p))
    as (p & Hwp & -> & ->).
  { destruct Hp as [Hp|[-> ->]].
    - apply den_pre_re in Hp as (tag & n & Hw & ->).
      exists (Some (wp, tag, n)); auto.
    - exists None; simpl; auto. }
  assert (exists d, wf_dev d /\ c3 = dev_caps d ++ pre_caps p
                                     ++ [(g_release, join "."%char segs)]
                    /\ wd = opt_text (option_map fst d))
    as (d & Hwd & -> & ->).
  { destruct Hd as [Hd|[-> ->]].
    - apply den_dev_re in Hd as (n & Hw & ->).
      exists (Some (wd, n)); auto.
    - exists None; simpl; auto. }
  assert (exists l, wf_local l /\ v = local_caps l ++ dev_caps d ++ pre_caps p
                                     ++ [(g_release, join "."%char segs)]
                    /\ wl = match l with Some x => "+"%char :: x | None => [] end)
    as (l & Hwl & -> & ->).
  { destruct Hl as [Hl|[-> ->]].
    - apply den_local_re in Hl as (loc & -> & Hne' & ->).
      exists (Some loc); auto.
    - exists None; simpl; auto. }
  exists (mkShape segs p d l); unfold wf_shape, shape_caps, shape_text; simpl.
  auto 10.
Qed.

Lemma version_match_shape (ver : str) (v : caps) :
  re_match version_regexp ver = Some v ->
  exists sh nl, wf_shape sh /\ v = shape_caps sh /\
                ver = shape_text sh ++ nl /\ (nl = [] \/ nl = [newline]).
Proof.
  intros H. apply re_match_sound in H as (w & nl & -> & Hnl & Hd).
  apply den_version_regexp in Hd as (sh & Hw & -> & ->).
  exists sh, nl; auto.
Qed.

(** ** Conversions and splitting *)

Lemma py_int_number (w : str) :
  is_number w = true -> py_int (Some w) = Ok (decimal w).
Proof. unfold py_int, is_number; intros ->; reflexivity. Qed.

Lemma py_int_ordinal (n : option str) :
  wf_ordinal n ->
  py_int n = match n with Some w => Ok (decimal w) | None => Raise TypeError end.
Proof. destruct n as [w|]; simpl; [apply py_int_number|reflexivity]. Qed.

Lemma mapM_py_int (segs : list str) :
  Forall (fun w => is_number w = true) segs ->
  mapM py_int (map Some segs) = Ok (map decimal segs).
Proof.
  induction 1 as [|w segs Hw _ IH]; [reflexivity|].
  cbn [map mapM]. rewrite (py_int_number _ Hw), IH. reflexivity.
Qed.

Lemma number_no_dot (w : str) : is_number w = true -> ~ In "."%char w.
Proof.
  unfold is_number; intros H Hin.
  apply andb_true_iff in H as [_ H].
  rewrite forallb_forall in H. apply H in Hin. discriminate Hin.
Qed.

Lemma split_on_nonempty (sep : ascii) (s : str) : split_on sep s <> [].
Proof.
  destruct s as [|x s]; simpl; [discriminate|].
  destruct (Ascii.eqb x sep); [discriminate|].
  destruct (split_on sep s); discriminate.
Qed.

Lemma split_on_plain (sep : ascii) (w : str) :
  ~ In sep w -> split_on sep w = [w].
Proof.
  induction w as [|x w IH]; intros Hn; [reflexivity|]. simpl.
  destruct (Ascii.eqb x sep) eqn:E.
  - apply Ascii.eqb_eq in E; subst; exfalso; apply Hn; left; reflexivity.
  - rewrite IH; [reflexivity|]. intros H; apply Hn; right; exact H.
Qed.

Lemma split_on_app (sep : ascii) (w t : str) :
  ~ In sep w -> split_on sep (w ++ sep :: t) = w :: split_on sep t.
Proof.
  induction w as [|x w IH]; intros Hn; simpl.
  - rewrite Ascii.eqb_refl; reflexivity.
  - destruct (Ascii.eqb x sep) eqn:E.
    + apply Ascii.eqb_eq in E; subst; exfalso; apply Hn; left; reflexivity.
    + rewrite IH; [reflexivity|]. intros H; apply Hn; right; exact H.
Qed.

Lemma split_on_join (sep : ascii) (segs : list str) :
  segs <> [] -> Forall (fun w => ~ In sep w) segs ->
  split_on sep (join sep segs) = segs.
Proof.
  intros Hne H; revert Hne.
  induction H as [|w segs Hw Hs IH]; intros Hne; [now elim Hne|].
  destruct segs as [|w' segs].
  - simpl; apply split_on_plain; assumption.
  - change (join sep (w :: w' :: segs)) with (w ++ sep :: join sep (w' :: segs)).
    rewrite split_on_app by assumption. rewrite IH; [reflexivity|discriminate].
Qed.

Lemma split_on_numbers (segs : list str) :
  segs <> [] -> Forall (fun w => is_number w = true) segs ->
  split_on "."%char (join "."%char segs) = segs.
Proof.
  intros Hne H. apply split_on_join; [assumption|].
  eapply Forall_impl; [|exact H]. apply number_no_dot.
Qed.

(** No piece of a split contains the separator. *)
Lemma split_on_no_sep (sep : ascii) (s w : str) :
  In w (split_on sep s) -> ~ In sep w.
Proof.
  revert w; induction s as [|x s IH]; intros w; simpl.
  - intros [<-|[]]; auto.
  - destruct (Ascii.eqb x sep) eqn:E.
    + intros [<-|H]; auto.
    + destruct (split_on sep s) as [|h t] eqn:Es.
      * intros [<-|[]] [->|[]]. rewrite Ascii.eqb_refl in E; discriminate.
      * intros [<-|H].
        -- intros [->|H]; [rewrite Ascii.eqb_refl in E; discriminate|].
           apply (IH h); [left; reflexivity|exact H].
        -- apply IH; right; exact H.
Qed.

(** ** Decimal numerals *)

Lemma decimal_snoc (w : str) (x : ascii) :
  decimal (w ++ [x]) = (10 * decimal w + digit_val x)%Z.
Proof. unfold decimal. rewrite fold_left_app. reflexivity. Qed.

Lemma decimal_of_lu (d d' : Decimal.uint) :
  fold_left (fun acc x => (10 * acc + digit_val x)%Z)
    (list_ascii_of_string (NilEmpty.string_of_uint d))
    (Z.of_N (DecimalPos.Unsigned.of_lu d'))
  = Z.of_N (DecimalPos.Unsigned.of_lu (Decimal.revapp d d')).
Proof.
  revert d'; induction d as [|d IH|d IH|d IH|d IH|d IH|d IH|d IH|d IH|d IH|d IH];
    intros d'; [reflexivity|..];
    cbn [NilEmpty.string_of_uint list_ascii_of_string fold_left Decimal.revapp];
    rewrite <- IH; f_equal;
    cbn [DecimalPos.Unsigned.of_lu]; unfold digit_val;
    match goal with
    | |- context [Z.of_nat (nat_of_ascii ?x)] =>
        let n := eval vm_compute in (Z.of_nat (nat_of_ascii x)) in
        change (Z.of_nat (nat_of_ascii x)) with n
    end; lia.
Qed.

Lemma decimal_of_uint (d : Decimal.uint) :
  decimal (list_ascii_of_string (NilEmpty.string_of_uint d))
  = Z.of_N (N.of_uint d).
Proof.
  unfold decimal.
  change 0%Z with (Z.of_N (DecimalPos.Unsigned.of_lu Decimal.Nil)).
  rewrite (decimal_of_lu d Decimal.Nil).
  unfold N.of_uint. rewrite DecimalPos.Unsigned.of_uint_alt. reflexivity.
Qed.

Lemma digits_of_uint (d : Decimal.uint) :
  forallb is_digit (list_ascii_of_string (NilEmpty.string_of_uint d)) = true.
Proof. induction d; simpl; auto. Qed.

Lemma to_uint_nonnil (n : N) : N.to_uint n <> Decimal.Nil.
Proof.
  destruct n as [|p]; [discriminate|]. apply DecimalPos.Unsigned.to_uint_nonnil.
Qed.

Lemma numeral_eq (n : N) :
  numeral n = list_ascii_of_string (NilEmpty.string_of_uint (N.to_uint n)).
Proof.
  unfold numeral, NilZero.string_of_uint.
  pose proof (to_uint_nonnil n) as H.
  destruct (N.to_uint n); [now elim H|reflexivity..].
Qed.

(** A numeral is a run of digits that denotes its number. *)
Lemma numeral_number (n : N) : is_number (numeral n) = true.
Proof.
  rewrite numeral_eq. unfold is_number. rewrite digits_of_uint, andb_true_r.
  pose proof (to_uint_nonnil n) as H.
  destruct (N.to_uint n); [now elim H|reflexivity..].
Qed.

Lemma decimal_numeral (n : N) : decimal (numeral n) = Z.of_N n.
Proof.
  rewrite numeral_eq, decimal_of_uint, DecimalN.Unsigned.of_to. reflexivity.
Qed.

(** ** Greedy repeats that succeed at once *)

Section Greedy.
Variable A : Type.
Implicit Types (k : cont A) (s w : str) (c : caps).

Lemma exec_chars_cons p x s c k :
exec (Chars p) (x :: s) c k = if p x then k s c else None.
Proof. reflexivity. Qed.

Lemma exec_star_chars_stop p s c k :
stops p s -> exec (Star (Chars p)) s c k = k s c.
Proof.
intros H. rewrite exec_star. destruct s as [|x s]; simpl; [reflexivity|].
simpl in H; rewrite H; reflexivity.
Qed.

Lemma exec_star_chars p w s c k a :
forallb p w = true -> exec (Star (Chars p)) s c k = Some a ->
exec (Star (Chars p)) (w ++ s) c k = Some a.
Proof.
intros Hw Hs; induction w as [|x w IH]; [exact Hs|].
simpl in Hw; apply andb_true_iff in Hw as [Hx Hw].
rewrite exec_star, <- app_comm_cons, exec_chars_cons, Hx.
unfold progress.
replace (length (w ++ s) <? length (x :: w ++ s)) with true
  by (symmetry; apply Nat.ltb_lt; simpl; lia).
rewrite (IH Hw); reflexivity.
Qed.

Lemma exec_plus_chars p w s c k a :
negb (Nat.eqb (length w) 0) && forallb p w = true ->
exec (Star (Chars p)) s c k = Some a ->
exec (Plus (Chars p)) (w ++ s) c k = Some a.
Proof.
intros Hw Hs. destruct w as [|x w]; [discriminate Hw|].
simpl in Hw; apply andb_true_iff in Hw as [Hx Hw].
unfold Plus. rewrite <- app_comm_cons.
change (exec (Chars p) (x :: w ++ s) c
          (fun s1 c1 => exec (Star (Chars p)) s1 c1 k) = Some a).
rewrite exec_chars_cons, Hx.
apply exec_star_chars; assumption.
Qed.
End Greedy.

(** ** A release on its own matches the version pattern *)

Lemma stops_dotted (segs : list str) (s : str) :
  stops is_digit s -> stops is_digit (concat (map (cons "."%char) segs) ++ s).
Proof. destruct segs; simpl; auto. Qed.

Lemma exec_star_dotted A (segs : list str) (s : str) c (k : cont A) a :
  Forall (fun w => is_number w = true) segs -> stops is_digit s ->
  exec (Star (Cat (Lit $".") (Plus (Chars is_digit)))) s c k = Some a ->
  exec (Star (Cat (Lit $".") (Plus (Chars is_digit))))
       (concat (map (cons "."%char) segs) ++ s) c k = Some a.
Proof.
  intros Hs Hstop Hk; induction Hs as [|w segs Hw _ IH]; [exact Hk|].
  rewrite exec_star.
  cbn [map concat]. rewrite <- !app_assoc, <- app_comm_cons.
  set (rest := concat (map (cons "."%char) segs) ++ s) in *.
  set (K := progress _ _).
  assert (exec (Cat (Lit $".") (Plus (Chars is_digit)))
            ("."%char :: w ++ rest) c K = Some a) as ->; [|reflexivity].
  change (exec (Plus (Chars is_digit)) (w ++ rest) c K = Some a).
  apply exec_plus_chars; [exact Hw|].
  rewrite exec_star_chars_stop by (apply stops_dotted; exact Hstop).
  unfold K, progress.
  replace (length rest <? length ("."%char :: w ++ rest)) with true
    by (symmetry; apply Nat.ltb_lt; simpl; rewrite length_app; lia).
  exact IH.
Qed.

Lemma exec_release_re A (segs : list str) c (k : cont A) a :
  segs <> [] -> Forall (fun w => is_number w = true) segs ->
  k [] ((g_release, join "."%char segs) :: c) = Some a ->
  exec release_re (join "."%char segs) c k = Some a.
Proof.
  intros Hne Hs Hk. destruct Hs as [|w segs Hw Hs]; [now elim Hne|].
  rewrite join_cons. unfold release_re.
  set (subject := w ++ concat (map (cons "."%char) segs)).
  change (exec (Plus (Chars is_digit)) subject c
            (fun s1 c1 =>
               exec (Star (Cat (Lit $".") (Plus (Chars is_digit)))) s1 c1
                 (fun s' c' => k s' (set_group g_release (consumed subject s') c')))
          = Some a).
  unfold subject at 1.
  rewrite <- (app_nil_r (concat (map (cons "."%char) segs))).
  apply exec_plus_chars; [exact Hw|].
  rewrite exec_star_chars_stop by (apply stops_dotted; exact I).
  apply exec_star_dotted; [exact Hs|exact I|].
  rewrite exec_star. simpl.
  replace (consumed subject []) with subject
    by (rewrite <- (app_nil_r subject) at 2; symmetry; apply consumed_app).
  unfold subject, set_group. rewrite <- join_cons. exact Hk.
Qed.

Lemma exec_markers_empty c :
  exec (Cat (Opt pre_re) (Cat (Opt dev_re) (Opt local_re))) [] c
       (fun s' c' => if at_end s' then Some c' else None) = Some c.
Proof. reflexivity. Qed.

Lemma re_match_release (segs : list str) :
  segs <> [] -> Forall (fun w => is_number w = true) segs ->
  re_match version_regexp (join "."%char segs)
  = Some [(g_release, join "."%char segs)].
Proof.
  intros Hne Hs. unfold re_match, version_regexp.
  change (exec release_re (join "."%char segs) []
            (fun s1 c1 =>
               exec (Cat (Opt pre_re) (Cat (Opt dev_re) (Opt local_re))) s1 c1
                 (fun s' c' => if at_end s' then Some c' else None))
          = Some [(g_release, join "."%char segs)]).
  apply exec_release_re; [assumption|assumption|].
  apply exec_markers_empty.
Qed.

(** ** The groups of a version match *)

Lemma grammar_tag_nonempty (tag : str) : In tag grammar_tags -> tag <> [].
Proof.
  unfold grammar_tags; simpl; intros H.
  repeat (destruct H as [<-|H]; [discriminate|]). destruct H.
Qed.

Lemma truthy_nonempty (w : str) : w <> [] -> truthy (Some w) = true.
Proof. destruct w; [congruence|reflexivity]. Qed.

Lemma wf_pre_truthy w tag n :
  wf_pre (Some (w, tag, n)) -> truthy (Some w) = true.
Proof.
  intros (Ht & _ & hy & dot & _ & _ & ->).
  apply grammar_tag_nonempty in Ht. apply truthy_nonempty.
  destruct hy; [destruct tag; [congruence|discriminate]|discriminate].
Qed.

Lemma wf_dev_truthy w n : wf_dev (Some (w, n)) -> truthy (Some w) = true.
Proof.
  intros (_ & d1 & d2 & _ & _ & ->). apply truthy_nonempty.
  destruct d1; discriminate.
Qed.

Lemma shape_groups_ok (sh : shape) (nl : str) :
  wf_shape sh ->
  groups_ok (shape_text sh ++ nl) (shape_caps sh) (sh_release sh).
Proof.
  destruct sh as [segs p d l]; unfold wf_shape, shape_caps, shape_text; simpl.
  unfold groups_ok, pre_groups_ok, dev_groups_ok, local_group_ok.
  intros (Hne & Hs & Hp & Hd & Hl).
  assert (Hgl : forall i c, negb (Nat.eqb i g_local) = true ->
                            group i (local_caps l ++ c) = group i c).
  { intros i c Hi; destruct l; simpl; [|reflexivity].
    destruct (Nat.eqb i g_local); [discriminate|reflexivity]. }
  repeat split.
  - exact Hne.
  - exact Hs.
  - rewrite Hgl by reflexivity.
    destruct d as [[dw [dn|]]|], p as [[[pw tag] [pn|]]|]; reflexivity.
  - rewrite <- app_assoc; eauto.
  - rewrite !Hgl by reflexivity.
    destruct p as [[[pw tag] pn]|].
    + right. exists pw, tag.
      pose proof (wf_pre_truthy Hp) as Ht.
      destruct Hp as (Htag & Hn & Hw).
      destruct d as [[dw [dn|]]|], pn as [n|]; simpl; auto 10.
    + left. destruct d as [[dw [dn|]]|]; simpl; auto.
  - rewrite !Hgl by reflexivity.
    destruct d as [[dw dn]|].
    + right. exists dw.
      pose proof (wf_dev_truthy Hd) as Ht.
      destruct Hd as (Hn & Hw).
      destruct dn as [n|], p as [[[pw tag] [pn|]]|]; simpl; auto 10.
    + left. destruct p as [[[pw tag] [pn|]]|]; simpl; auto.
  - destruct l as [[|x w]|]; simpl in *; [congruence|right; eauto|left].
    destruct d as [[dw [dn|]]|], p as [[[pw tag] [pn|]]|]; reflexivity.
Qed.

Lemma version_match_groups (ver : str) (v : caps) :
  re_match version_regexp ver = Some v ->
  exists segs, groups_ok ver v segs.
Proof.
  intros H. apply version_match_shape in H as (sh & nl & Hw & -> & -> & _).
  exists (sh_release sh). apply shape_groups_ok; exact Hw.
Qed.

(** ** parse_version on the groups of a match *)

Lemma parse_stage_pre (ver : str) (v : caps) (tag : str) :
  truthy (group g_pre v) = true -> group g_pre_l v = Some tag ->
  In tag grammar_tags -> wf_ordinal (group g_pre_n v) ->
  parse_stage ver v
  = if existsb (str_eqb tag) mapped_tags then
      match group g_pre_n v with
      | Some n =>
          Ok (Some (canonical_tag tag), decimal n,
              if truthy (group g_dev v)
              then [$"dev" ++ py_str (group g_dev_n v)] else [])
      | None => Raise TypeError
      end
    else Raise (cannot_determine_stage ver).
Proof.
  intros Hp Hl Ht Hn. unfold parse_stage. rewrite Hp, Hl.
  rewrite (py_int_ordinal _ Hn).
  unfold grammar_tags in Ht; simpl in Ht.
  repeat (destruct Ht as [<-|Ht];
          [destruct (group g_pre_n v); reflexivity|]).
  destruct Ht.
Qed.

Lemma parse_stage_dev (ver : str) (v : caps) :
  truthy (group g_pre v) = false -> truthy (group g_dev v) = true ->
  wf_ordinal (group g_dev_n v) ->
  parse_stage ver v
  = match group g_dev_n v with
    | Some n => Ok (Some $"dev", decimal n, [])
    | None => Raise TypeError
    end.
Proof.
  intros Hp Hd Hn. unfold parse_stage. rewrite Hp, Hd.
  rewrite (py_int_ordinal _ Hn). destruct (group g_dev_n v); reflexivity.
Qed.

Lemma parse_stage_none (ver : str) (v : caps) :
  truthy (group g_pre v) = false -> truthy (group g_dev v) = false ->
  parse_stage ver v = Ok (None, 0%Z, []).
Proof. intros Hp Hd. unfold parse_stage. rewrite Hp, Hd. reflexivity. Qed.

Lemma parse_groups_release (ver : str) (v : caps) (segs : list str) :
  groups_ok ver v segs ->
  parse_groups ver v
  = st <- parse_stage ver v ;;
    f <- release_fields (map decimal segs) ;;
    Ok (mkVersion (fst (fst f)) (snd (fst f)) (snd f)
          (fst (fst st)) (snd (fst st)) (snd st ++ local_segments v)).
Proof.
  intros (Hne & Hs & Hr & _ & _ & _ & Hl). unfold parse_groups.
  destruct (parse_stage ver v) as [[[p n] md]|e]; [|reflexivity].
  cbn [bind fst snd]. rewrite Hr, (split_on_numbers Hne Hs), (mapM_py_int Hs).
  assert (match group g_local v with
          | Some (x :: w) => md ++ split_on "."%char (x :: w)
          | _ => md
          end = md ++ local_segments v) as ->.
  { unfold local_segments. destruct Hl as [->|(x & w & ->)];
      [rewrite app_nil_r|]; reflexivity. }
  clear Hr Hs. destruct segs as [|a [|b [|c [|d more]]]];
    [now elim Hne|reflexivity..].
Qed.

Lemma release_segments_ok (ver : str) (v : caps) (segs : list str) :
  groups_ok ver v segs -> release_segments v = segs.
Proof.
  intros (Hne & Hs & Hr & _). unfold release_segments.
  rewrite Hr. apply split_on_numbers; assumption.
Qed.

Lemma is_ok_release_fields (nums : list Z) :
  is_ok (release_fields nums) = (2 <=? length nums).
Proof. destruct nums as [|a [|b rest]]; reflexivity. Qed.

Lemma pre_groups_cases (v : caps) :
  pre_groups_ok v ->
  truthy (group g_pre v) = false \/
  (truthy (group g_pre v) = true /\
   exists tag, group g_pre_l v = Some tag /\ In tag grammar_tags /\
               wf_ordinal (group g_pre_n v)).
Proof.
  intros [(-> & _)|(w & tag & -> & Hw & Hl & Ht & Hn & _)]; [left; reflexivity|].
  right; eauto.
Qed.

Lemma dev_groups_cases (v : caps) :
  dev_groups_ok v ->
  truthy (group g_dev v) = false \/
  (truthy (group g_dev v) = true /\ wf_ordinal (group g_dev_n v)).
Proof.
  intros [(-> & _)|(w & -> & Hw & Hn & _)]; [left; reflexivity|].
  right; eauto.
Qed.

Lemma mapped_tag_cases (tag : str) :
  In tag grammar_tags ->
  (existsb (str_eqb tag) mapped_tags = true /\ In tag mapped_tags) \/
  (existsb (str_eqb tag) mapped_tags = false /\
   (tag = $"pre" \/ tag = $"preview")).
Proof.
  unfold grammar_tags, mapped_tags; simpl; intros H.
  repeat (destruct H as [<-|H]; [simpl; auto 12|]). destruct H.
Qed.

(** The stage part goes through exactly when [stage_convertible] says so,
    and otherwise raises one of two exceptions. *)
Lemma parse_stage_outcome (ver : str) (v : caps) (segs : list str) :
  groups_ok ver v segs ->
  is_ok (parse_stage ver v) = stage_convertible v /\
  forall e, parse_stage ver v = Raise e ->
            e = cannot_determine_stage ver \/ e = TypeError.
Proof.
  intros (_ & _ & _ & _ & Hp & Hd & _). unfold stage_convertible.
  apply pre_groups_cases in Hp as [Hp|(Hp & tag & Hl & Ht & Hn)].
  - apply dev_groups_cases in Hd as [Hd|(Hd & Hn)].
    + rewrite (parse_stage_none _ _ Hp Hd), Hp, Hd.
      split; [reflexivity|discriminate].
    + rewrite (parse_stage_dev _ _ Hp Hd Hn), Hp, Hd.
      destruct (group g_dev_n v); split; try reflexivity; try discriminate.
      intros e H; inversion H; auto.
  - rewrite (parse_stage_pre _ _ Hp Hl Ht Hn), Hp, Hl.
    change (opt_in (Some tag) mapped_tags)
      with (existsb (str_eqb tag) mapped_tags).
    destruct (existsb (str_eqb tag) mapped_tags).
    + destruct (group g_pre_n v); split; try reflexivity; try discriminate.
      intros e H; inversion H; auto.
    + split; [reflexivity|]. intros e H; inversion H; auto.
Qed.

(** ** The groups of a name match *)

Lemma den_slot_regexp (w : str) (m : caps) :
  den slot_regexp w [] m ->
  exists b, (m = [(1, b)] /\ w = b) \/
            (exists sl, m = [(2, sl); (1, b)] /\ w = b ++ "-"%char :: sl).
Proof.
  intros (b & w2 & c1 & -> & (c0 & Hb & ->) & Hs).
  assert (c0 = []) as -> by (eapply den_no_groups; [|exact Hb]; reflexivity).
  exists b. destruct Hs as [(d & sl & c2 & -> & [-> ->] & c3 & Hs & ->)|[-> ->]].
  - assert (c3 = [(1, b)]) as ->
        by (eapply den_no_groups; [|exact Hs]; reflexivity).
    right; exists sl; auto.
  - left; rewrite app_nil_r; auto.
Qed.

Lemma slot_match_groups (pkgname : str) (m : caps) :
  re_match slot_regexp pkgname = Some m ->
  exists b nl, group 1 m = Some b /\ (nl = [] \/ nl = [newline]) /\
    pkgname = b ++ match group 2 m with
                   | Some sl => "-"%char :: sl
                   | None => []
                   end ++ nl.
Proof.
  intros H. apply re_match_sound in H as (w & nl & -> & Hnl & Hd).
  apply den_slot_regexp in Hd as (b & [[-> ->]|(sl & -> & ->)]);
    exists b, nl; simpl; rewrite <- ?app_assoc; auto.
Qed.

Lemma no_final_newline (w nl : str) :
  ~ In newline (w ++ nl) -> nl = [] \/ nl = [newline] -> nl = [].
Proof.
  intros Hn [->| ->]; [reflexivity|].
  exfalso; apply Hn, in_or_app; right; left; reflexivity.
Qed.

Lemma parse_version_match (ver : str) (v : caps) (segs : list str) :
  re_match version_regexp ver = Some v -> groups_ok ver v segs ->
  parse_version ver
  = st <- parse_stage ver v ;;
    f <- release_fields (map decimal segs) ;;
    Ok (mkVersion (fst (fst f)) (snd (fst f)) (snd f)
          (fst (fst st)) (snd (fst st)) (snd st ++ local_segments v)).
Proof.
  intros Hm Hg. unfold parse_version. rewrite Hm.
  apply parse_groups_release; exact Hg.
Qed.

Lemma is_ok_parse_version (ver : str) (v : caps) (segs : list str) :
  re_match version_regexp ver = Some v -> groups_ok ver v segs ->
  is_ok (parse_version ver) = stage_convertible v && (2 <=? length segs).
Proof.
  intros Hm Hg. rewrite (parse_version_match Hm Hg).
  destruct (parse_stage_outcome Hg) as [<- _].
  destruct (parse_stage ver v) as [st|e]; [|reflexivity].
  cbn [bind is_ok andb].
  rewrite <- (length_map decimal), <- is_ok_release_fields.
  destruct (release_fields (map decimal segs)); reflexivity.
Qed.

Lemma parse_version_errors (ver : str) (v : caps) (segs : list str) e :
  re_match version_regexp ver = Some v -> groups_ok ver v segs ->
  parse_version ver = Raise e ->
  (e = cannot_determine_stage ver /\ parse_stage ver v = Raise e) \/
  e = TypeError \/ e = IndexError.
Proof.
  intros Hm Hg. rewrite (parse_version_match Hm Hg).
  destruct (parse_stage_outcome Hg) as [_ He].
  destruct (parse_stage ver v) as [st|e'].
  - cbn [bind]. destruct (map decimal segs) as [|a [|b rest]]; simpl;
      intros H; inversion H; auto.
  - cbn [bind]. intros H; inversion H; subst.
    destruct (He _ eq_refl) as [-> | ->]; auto.
Qed.

Lemma stage_message_differs (ver : str) :
  cannot_parse ver <> cannot_determine_stage ver.
Proof. discriminate. Qed.

(** ** The loop body *)

Lemma rfind_split_some (sep : ascii) (s h t : str) :
  rfind_split sep s = Some (h, t) -> s = h ++ sep :: t /\ ~ In sep t.
Proof.
  revert h t; induction s as [|x s IH]; intros h t; simpl; [discriminate|].
  destruct (rfind_split sep s) as [[h' t']|] eqn:E.
  - intros H; inversion H; subst.
    destruct (IH _ _ eq_refl) as [-> Hn]. auto.
  - destruct (Ascii.eqb x sep) eqn:Ex; [|discriminate].
    apply Ascii.eqb_eq in Ex; subst x.
    intros H; inversion H; subst. split; [reflexivity|].
    clear IH H. induction t as [|y t IHt]; [auto|].
    simpl in E. destruct (rfind_split sep t) as [[? ?]|]; [discriminate|].
    destruct (Ascii.eqb y sep) eqn:Ey; [discriminate|].
    intros [->|Hin]; [rewrite Ascii.eqb_refl in Ey; discriminate|].
    apply IHt; [reflexivity|exact Hin].
Qed.

Lemma rfind_split_none (sep : ascii) (s : str) :
  rfind_split sep s = None <-> ~ In sep s.
Proof.
  induction s as [|x s IH]; simpl; [tauto|].
  destruct (rfind_split sep s) as [[h t]|].
  - split; [discriminate|]. intros Hn; exfalso.
    assert (H : ~ In sep s) by tauto. apply IH in H; discriminate.
  - destruct (Ascii.eqb x sep) eqn:Ex.
    + apply Ascii.eqb_eq in Ex; subst x. split; [discriminate|tauto].
    + split; [|reflexivity]. intros _ [->|Hin].
      * rewrite Ascii.eqb_refl in Ex; discriminate.
      * apply IH in Hin; [exact Hin|reflexivity].
Qed.

Lemma index_entry_eq (arch pkgname pkgver : str) :
  index_entry arch pkgname pkgver
  = (fst (split_name pkgname),
     pv <- parse_version (relver_of pkgver) ;;
     Ok (mkEntry (fst (snd (split_name pkgname)))
                 (snd (snd (split_name pkgname)))
                 pkgname (relver_of pkgver) pv (revver_of pkgver)
                 (rewrite_arch arch)
                 (pkgname ++ $"=" ++ relver_of pkgver ++ $"-"
                          ++ revver_of pkgver))).
Proof.
  unfold index_entry, relver_of, revver_of.
  destruct (rpartition "-"%char pkgver) as [[relver sep] revver].
  destruct (split_name pkgname) as [printed [b s]]. reflexivity.
Qed.

Lemma index_entry_ok (arch pkgname pkgver : str) (e : entry) :
  snd (index_entry arch pkgname pkgver) = Ok e ->
  exists pv, parse_version (relver_of pkgver) = Ok pv /\
    e = mkEntry (fst (snd (split_name pkgname)))
                (snd (snd (split_name pkgname)))
                pkgname (relver_of pkgver) pv (revver_of pkgver)
                (rewrite_arch arch)
                (pkgname ++ $"=" ++ relver_of pkgver ++ $"-"
                         ++ revver_of pkgver).
Proof.
  rewrite index_entry_eq; cbn [snd].
  destruct (parse_version (relver_of pkgver)) as [pv|err]; [|discriminate].
  cbn [bind]. intros H; inversion H. eauto.
Qed.

(** What holds of every entry the loop body can produce from the fields
    of a line holds of every entry of the index. *)
Lemma index_lines_Forall (P : entry -> Prop) (lines : list str) :
  (forall line arch pkgname pkgver e,
     In line lines ->
     unpack3 (split_on nul line) = Ok (arch, pkgname, pkgver) ->
     snd (index_entry arch pkgname pkgver) = Ok e -> P e) ->
  forall es, snd (index_lines lines) = Ok es -> Forall P es.
Proof.
  induction lines as [|line lines IH]; intros HP es; simpl.
  - intros H; inversion H; constructor.
  - assert (IH' : forall es, snd (index_lines lines) = Ok es -> Forall P es).
    { apply IH. intros l a n p e Hin; apply HP; right; exact Hin. }
    destruct (forallb is_space line); [apply IH'|].
    destruct (unpack3 (split_on nul line)) as [[[arch pkgname] pkgver]|err] eqn:Eu;
      [|discriminate].
    pose proof (HP line arch pkgname pkgver) as HP1.
    destruct (index_entry arch pkgname pkgver) as [printed [e|err]];
      [|discriminate].
    destruct (index_lines lines) as [printed' [es'|err]]; [|discriminate].
    cbn. intros H; inversion H; subst. constructor.
    + apply HP1; [left; reflexivity|exact Eu|reflexivity].
    + apply IH'; reflexivity.
Qed.

Lemma split_on_sub (sep : ascii) (s w : str) (x : ascii) :
  In w (split_on sep s) -> In x w -> In x s.
Proof.
  revert w; induction s as [|y s IH]; intros w; simpl.
  - intros [<-|[]] [].
  - destruct (Ascii.eqb y sep).
    + intros [<-|H] Hx; [destruct Hx|]. right; eapply IH; eassumption.
    + destruct (split_on sep s) as [|h t].
      * intros [<-|[]] [->|[]]; auto.
      * intros [<-|H] Hx.
        -- destruct Hx as [->|Hx]; [auto|].
           right; apply (IH h); [left; reflexivity|exact Hx].
        -- right; apply (IH w); [right; exact H|exact Hx].
Qed.

Lemma unpack3_fields (fields : list str) (arch pkgname pkgver : str) :
  unpack3 fields = Ok (arch, pkgname, pkgver) ->
  fields = [arch; pkgname; pkgver].
Proof.
  destruct fields as [|a [|b [|c [|d more]]]]; simpl; try discriminate.
  intros H; inversion H; reflexivity.
Qed.

(** The names that the loop of [build_index] handles are pieces of lines
    split at newlines: they contain none. *)
Lemma build_index_names (stdout line arch pkgname pkgver : str) :
  In line (split_on newline stdout) ->
  unpack3 (split_on nul line) = Ok (arch, pkgname, pkgver) ->
  ~ In newline pkgname.
Proof.
  intros Hl Hu Hin. apply unpack3_fields in Hu.
  apply (split_on_no_sep _ _ _ Hl).
  apply (split_on_sub nul line pkgname); [|exact Hin].
  rewrite Hu; right; left; reflexivity.
Qed.

(** * The claims *)

(** ** C1 *)

(** C1, as stated, fails: ["1.2.3pre1"] matches the version grammar with a
    pre-release group whose stage tag is [pre], which the stage mapping
    does not know, and [parse_version] raises the error of the branch the
    claim calls unreachable. *)
Lemma C1_counterexample :
  exists v, re_match version_regexp $"1.2.3pre1" = Some v /\
            truthy (group g_pre v) = true /\
            group g_pre_l v = Some $"pre" /\
            ~ In $"pre" mapped_tags /\
            parse_version $"1.2.3pre1"
            = Raise (cannot_determine_stage $"1.2.3pre1").
Proof.
  eexists; split; [vm_compute; reflexivity|].
  repeat split; try reflexivity.
  unfold mapped_tags; simpl; intros H.
  repeat (destruct H as [H|H]; [discriminate H|]). exact H.
Qed.

(** C1 (amended): for every version string that matches the version grammar
    with its pre-release group present, the stage tag is one of the eight
    spellings of the grammar (a, b, c, rc, alpha, beta, pre, preview); the
    stage mapping knows all of them but [pre] and [preview], and
    [parse_version] raises the unrecognized-stage error exactly when the tag
    is [pre] or [preview]. *)
Theorem C1_stage_tag (ver : str) (v : caps) :
  re_match version_regexp ver = Some v ->
  truthy (group g_pre v) = true ->
  exists tag, group g_pre_l v = Some tag /\ In tag grammar_tags /\
    (In tag mapped_tags <-> ~ (tag = $"pre" \/ tag = $"preview")) /\
    (parse_version ver = Raise (cannot_determine_stage ver) <->
     tag = $"pre" \/ tag = $"preview").
Proof.
  intros Hm Hp.
  destruct (version_match_groups _ Hm) as (segs & Hg).
  pose proof Hg as (_ & _ & _ & _ & Hpre & _ & _).
  apply pre_groups_cases in Hpre as [Hpre|(_ & tag & Hl & Ht & Hn)];
    [congruence|].
  exists tag. split; [exact Hl|]. split; [exact Ht|].
  rewrite (parse_version_match Hm Hg), (parse_stage_pre _ _ Hp Hl Ht Hn).
  destruct (mapped_tag_cases Ht) as [[E Hin]|[E Hnot]]; rewrite E.
  - assert (Hno : ~ (tag = $"pre" \/ tag = $"preview")).
    { unfold mapped_tags in Hin; simpl in Hin.
      repeat (destruct Hin as [<-|Hin]; [intros [H|H]; discriminate H|]).
      destruct Hin. }
    split; [tauto|]. split; [|tauto].
    destruct (group g_pre_n v); cbn [bind]; [|discriminate].
    destruct (map decimal segs) as [|a [|b rest]]; simpl; discriminate.
  - split; [|cbn [bind]; split; auto].
    split; [|tauto]. intros Hin; exfalso.
    unfold mapped_tags in Hin; simpl in Hin.
    destruct Hnot as [-> | ->];
      repeat (destruct Hin as [Hin|Hin]; [discriminate Hin|]); exact Hin.
Qed.

Lemma C1_stage_tag_witness :
  exists v, re_match version_regexp $"1.2.3-alpha1" = Some v /\
    exists tag, group g_pre_l v = Some tag /\ In tag grammar_tags /\
      (In tag mapped_tags <-> ~ (tag = $"pre" \/ tag = $"preview")) /\
      (parse_version $"1.2.3-alpha1"
       = Raise (cannot_determine_stage $"1.2.3-alpha1") <->
       tag = $"pre" \/ tag = $"preview").
Proof.
  eexists; split; [vm_compute; reflexivity|].
  apply C1_stage_tag; reflexivity.
Defined.

(** ** C2 *)

(** C2, as stated, fails: ["1"] matches the version grammar, and
    [parse_version] raises all the same, when it reads the minor number. *)
Lemma C2_counterexample :
  re_match version_regexp $"1" = Some [(g_release, $"1")] /\
  parse_version $"1" = Raise IndexError.
Proof. split; reflexivity. Qed.

(** C2 (amended): [parse_version] returns a version or raises; it raises
    the cannot-parse error exactly when the string does not match the
    version grammar.  On a string that matches it returns a version exactly
    when the stage part is convertible (a pre-release marker carries a
    mapped stage tag and an ordinal, a development marker on its own carries
    an ordinal) and the release has at least two segments; otherwise it
    raises the unrecognized-stage error, a type error or an index error. *)
Theorem C2_parse_version_outcome (ver : str) :
  (re_match version_regexp ver = None <->
   parse_version ver = Raise (cannot_parse ver)) /\
  (forall v, re_match version_regexp ver = Some v ->
     is_ok (parse_version ver)
     = stage_convertible v && (2 <=? length (release_segments v)) /\
     (forall e, parse_version ver = Raise e ->
        e = cannot_determine_stage ver \/ e = TypeError \/ e = IndexError)).
Proof.
  split.
  - split.
    + intros H; unfold parse_version; rewrite H; reflexivity.
    + intros H. destruct (re_match version_regexp ver) as [v|] eqn:Hm;
        [exfalso|reflexivity].
      destruct (version_match_groups _ Hm) as (segs & Hg).
      destruct (parse_version_errors Hm Hg H) as [[E _]|[E|E]];
        [apply (stage_message_differs E)|discriminate E..].
  - intros v Hm. destruct (version_match_groups _ Hm) as (segs & Hg). split.
    + rewrite (release_segments_ok Hg). apply (is_ok_parse_version Hm Hg).
    + intros e H.
      destruct (parse_version_errors Hm Hg H) as [[E _]|[E|E]]; auto.
Qed.

Lemma C2_parse_version_outcome_witness :
  is_ok (parse_version $"1.2.3rc2") = true /\
  is_ok (parse_version $"1.2.3rc") = false.
Proof.
  split.
  - destruct (C2_parse_version_outcome $"1.2.3rc2") as [_ H].
    destruct (H _ eq_refl) as [-> _]. reflexivity.
  - destruct (C2_parse_version_outcome $"1.2.3rc") as [_ H].
    destruct (H _ eq_refl) as [-> _]. reflexivity.
Defined.

(** ** C3 *)

Lemma parse_version_release (segs : list str) :
  segs <> [] -> Forall (fun w => is_number w = true) segs ->
  parse_version (join "."%char segs)
  = f <- release_fields (map decimal segs) ;;
    Ok (mkVersion (fst (fst f)) (snd (fst f)) (snd f) None 0%Z []).
Proof.
  intros Hne Hs. unfold parse_version. rewrite (re_match_release Hne Hs).
  unfold parse_groups.
  change (parse_stage (join "."%char segs) [(g_release, join "."%char segs)])
    with (Ok (A:=option str * Z * list str) (None, 0%Z, [])).
  cbn [bind group Nat.eqb g_release g_local].
  rewrite (split_on_numbers Hne Hs), (mapM_py_int Hs).
  clear Hs. destruct segs as [|a [|b [|c [|d more]]]];
    [now elim Hne|reflexivity..].
Qed.

(** C3: on every string that matches the version grammar the release group
    is a dot-separated run of numbers [segs] that starts the string, and
    [parse_version] reads it by position: with one segment it raises; with
    two or more the release never makes it raise, and a returned version
    has major [segs[0]], minor [segs[1]] and patch [segs[2]] when there are
    exactly three segments and [0] otherwise.  A release on its own with two
    or more segments is always parsed, so that ["1.2"] gives (1, 2, 0),
    ["1"] raises and a release of more than three segments gives patch 0. *)
Theorem C3_release_positions :
  (forall ver v, re_match version_regexp ver = Some v ->
     exists segs rest,
       ver = join "."%char segs ++ rest /\
       Forall (fun w => is_number w = true) segs /\
       release_segments v = segs /\
       (length segs = 1 -> exists e, parse_version ver = Raise e) /\
       (2 <= length segs ->
        is_ok (parse_version ver) = is_ok (parse_stage ver v)) /\
       (forall pv, parse_version ver = Ok pv ->
          major pv = nth 0 (map decimal segs) 0%Z /\
          minor pv = nth 1 (map decimal segs) 0%Z /\
          patch pv = if Nat.eqb (length segs) 3
                     then nth 2 (map decimal segs) 0%Z else 0%Z)) /\
  (forall segs, segs <> [] -> Forall (fun w => is_number w = true) segs ->
     match map decimal segs with
     | [] => False
     | [_] => parse_version (join "."%char segs) = Raise IndexError
     | [a; b; c] =>
         parse_version (join "."%char segs) = Ok (mkVersion a b c None 0 [])
     | a :: b :: _ =>
         parse_version (join "."%char segs) = Ok (mkVersion a b 0 None 0 [])
     end) /\
  parse_version $"1.2" = Ok (mkVersion 1 2 0 None 0 []) /\
  parse_version $"1" = Raise IndexError /\
  parse_version $"1.2.3.4" = Ok (mkVersion 1 2 0 None 0 []).
Proof.
  split; [|split; [|repeat split; reflexivity]].
  - intros ver v Hm. destruct (version_match_groups _ Hm) as (segs & Hg).
    pose proof Hg as (Hne & Hs & _ & (rest & Hv) & _).
    exists segs, rest. split; [exact Hv|]. split; [exact Hs|].
    split; [exact (release_segments_ok Hg)|].
    rewrite (parse_version_match Hm Hg).
    destruct (parse_stage ver v) as [[[p n] md]|e]; cbn [bind is_ok].
    + clear Hs Hg Hv. destruct segs as [|a [|b [|c [|d more]]]];
        [now elim Hne|simpl..].
      * split; [eauto|]. split; [lia|]. discriminate.
      * split; [discriminate|]. split; [reflexivity|].
        intros pv H; inversion H; auto.
      * split; [discriminate|]. split; [reflexivity|].
        intros pv H; inversion H; auto.
      * split; [discriminate|]. split; [reflexivity|].
        intros pv H; inversion H; auto.
    + split; [eauto|]. split; [reflexivity|]. discriminate.
  - intros segs Hne Hs. rewrite (parse_version_release Hne Hs).
    clear Hs. destruct segs as [|a [|b [|c [|d more]]]];
      [now elim Hne|reflexivity..].
Qed.

Lemma C3_release_positions_witness :
  parse_version $"10.20.30.40.50" = Ok (mkVersion 10 20 0 None 0 []) /\
  exists e, parse_version $"7rc1" = Raise e.
Proof.
  destruct C3_release_positions as (Hall & Hrel & _). split.
  - apply (Hrel [$"10"; $"20"; $"30"; $"40"; $"50"]).
    + discriminate.
    + repeat constructor.
  - destruct (Hall $"7rc1" _ eq_refl) as (segs & rest & _ & _ & Hs & H1 & _).
    apply H1. rewrite <- Hs. reflexivity.
Defined.

(** ** C4 *)

Lemma canonical_tag_not_dev (tag : str) : canonical_tag tag <> $"dev".
Proof.
  unfold canonical_tag.
  destruct (existsb _ _); [discriminate|].
  destruct (existsb _ _); discriminate.
Qed.

(** C4, as stated, fails: in ["1.2.3a.dev5"] both a pre-release marker
    and a development marker match, but the pre-release marker has no
    ordinal, and [parse_version] raises instead of setting the stage and
    the number. *)
Lemma C4_counterexample :
  exists v, re_match version_regexp $"1.2.3a.dev5" = Some v /\
            truthy (group g_pre v) = true /\
            truthy (group g_dev v) = true /\
            group g_pre_n v = None /\
            parse_version $"1.2.3a.dev5" = Raise TypeError.
Proof.
  eexists; split; [vm_compute; reflexivity|].
  repeat split; reflexivity.
Qed.

(** C4 (amended): for every version string in which both a pre-release
    marker and a development marker match, [parse_version] returns a
    version exactly when the stage tag is one the mapping knows, the
    pre-release ordinal is present and the release has at least two
    segments; the version it returns has its stage and number from the
    pre-release marker (never the stage [dev]), and the development marker
    appears only as the first metadata token, [dev] followed by the text of
    the development ordinal ([None] when it is absent), before the local
    segments. *)
Theorem C4_pre_and_dev (ver : str) (v : caps) :
  re_match version_regexp ver = Some v ->
  truthy (group g_pre v) = true ->
  truthy (group g_dev v) = true ->
  exists tag, group g_pre_l v = Some tag /\
    wf_ordinal (group g_dev_n v) /\
    is_ok (parse_version ver)
    = existsb (str_eqb tag) mapped_tags && is_some (group g_pre_n v)
      && (2 <=? length (release_segments v)) /\
    (forall pv, parse_version ver = Ok pv ->
       prerelease pv = Some (canonical_tag tag) /\
       prerelease pv <> Some $"dev" /\
       (exists n, group g_pre_n v = Some n /\ is_number n = true /\
                  prerelease_no pv = decimal n) /\
       metadata pv
       = ($"dev" ++ py_str (group g_dev_n v)) :: local_segments v).
Proof.
  intros Hm Hp Hd.
  destruct (version_match_groups _ Hm) as (segs & Hg).
  pose proof Hg as (_ & _ & _ & _ & Hpre & Hdev & _).
  apply pre_groups_cases in Hpre as [Hpre|(_ & tag & Hl & Ht & Hn)];
    [congruence|].
  apply dev_groups_cases in Hdev as [Hdev|(_ & Hdn)]; [congruence|].
  exists tag. split; [exact Hl|]. split; [exact Hdn|]. split.
  - rewrite (is_ok_parse_version Hm Hg), (release_segments_ok Hg).
    unfold stage_convertible. rewrite Hp, Hl. reflexivity.
  - intros pv. rewrite (parse_version_match Hm Hg).
    rewrite (parse_stage_pre _ _ Hp Hl Ht Hn), Hd.
    destruct (existsb (str_eqb tag) mapped_tags); [|discriminate].
    destruct (group g_pre_n v) as [n|] eqn:En; [|discriminate].
    cbn [bind fst snd].
    destruct (release_fields (map decimal segs)) as [f|e]; [|discriminate].
    cbn [bind]. intros H; inversion H; subst; cbn.
    repeat split; try reflexivity.
    + intros E; inversion E. eapply canonical_tag_not_dev; eassumption.
    + exists n; auto.
Qed.

Lemma C4_pre_and_dev_witness :
  exists v, re_match version_regexp $"1.2.3a1.dev5" = Some v /\
    exists tag, group g_pre_l v = Some tag /\
      wf_ordinal (group g_dev_n v) /\
      is_ok (parse_version $"1.2.3a1.dev5")
      = existsb (str_eqb tag) mapped_tags && is_some (group g_pre_n v)
        && (2 <=? length (release_segments v)) /\
      (forall pv, parse_version $"1.2.3a1.dev5" = Ok pv ->
         prerelease pv = Some (canonical_tag tag) /\
         prerelease pv <> Some $"dev" /\
         (exists n, group g_pre_n v = Some n /\ is_number n = true /\
                    prerelease_no pv = decimal n) /\
         metadata pv
         = ($"dev" ++ py_str (group g_dev_n v)) :: local_segments v).
Proof.
  eexists; split; [vm_compute; reflexivity|].
  apply C4_pre_and_dev; reflexivity.
Defined.

(** ** C5 *)

(** C5: for all non-empty runs of digits [a], [b] and [c], the string
    [a.b.c] is parsed to the version whose major, minor and patch are the
    numbers that [a], [b] and [c] denote, with no pre-release stage, number
    0 and no metadata; so for all natural numbers [x], [y] and [z] the
    string made of their numerals gives back exactly [x], [y] and [z]. *)
Theorem C5_plain_version :
  (forall a b c : str,
     is_number a = true -> is_number b = true -> is_number c = true ->
     parse_version (a ++ $"." ++ b ++ $"." ++ c)
     = Ok (mkVersion (decimal a) (decimal b) (decimal c) None 0 [])) /\
  (forall x y z : N,
     parse_version (numeral x ++ $"." ++ numeral y ++ $"." ++ numeral z)
     = Ok (mkVersion (Z.of_N x) (Z.of_N y) (Z.of_N z) None 0 [])).
Proof.
  assert (H : forall a b c : str,
             is_number a = true -> is_number b = true -> is_number c = true ->
             parse_version (a ++ $"." ++ b ++ $"." ++ c)
             = Ok (mkVersion (decimal a) (decimal b) (decimal c) None 0 [])).
  { intros a b c Ha Hb Hc.
    change (a ++ $"." ++ b ++ $"." ++ c) with (join "."%char [a; b; c]).
    rewrite parse_version_release; [reflexivity|discriminate|auto]. }
  split; [exact H|].
  intros x y z. rewrite H by apply numeral_number.
  rewrite !decimal_numeral. reflexivity.
Qed.

Lemma C5_plain_version_witness :
  parse_version $"12.0.345" = Ok (mkVersion 12 0 345 None 0 []).
Proof. apply (proj1 C5_plain_version $"12" $"0" $"345"); reflexivity. Defined.

(** ** C6 *)

(** C6: the name split of the loop body is total.  When the name matches
    the name grammar it prints nothing and returns the two groups of the
    match, the first of which is always set; when the name does not match
    it prints one diagnostic line and returns the whole name with no slot.
    Either way the loop body goes on: whether it produces an entry depends
    on [parse_version] alone. *)
Theorem C6_split_name (pkgname : str) :
  (forall m, re_match slot_regexp pkgname = Some m ->
     exists b, group 1 m = Some b /\
               split_name pkgname = ([], (Some b, group 2 m))) /\
  (re_match slot_regexp pkgname = None ->
     split_name pkgname
     = ([$"cannot parse package name: " ++ pkgname], (Some pkgname, None))) /\
  (forall arch pkgver,
     fst (index_entry arch pkgname pkgver) = fst (split_name pkgname) /\
     is_ok (snd (index_entry arch pkgname pkgver))
     = is_ok (parse_version (relver_of pkgver))) /\
  split_name $"foo-bar-123" = ([], (Some $"foo-bar", Some $"123")) /\
  split_name $"foopkg" = ([], (Some $"foopkg", None)) /\
  split_name $"foo.pkg"
  = ([$"cannot parse package name: foo.pkg"], (Some $"foo.pkg", None)).
Proof.
  split; [|split; [|split; [|repeat split; reflexivity]]].
  - intros m Hm. unfold split_name; rewrite Hm.
    destruct (slot_match_groups _ Hm) as (b & nl & Hb & _).
    exists b; rewrite Hb; auto.
  - intros Hm. unfold split_name; rewrite Hm. reflexivity.
  - intros arch pkgver. rewrite index_entry_eq; cbn [fst snd].
    split; [reflexivity|].
    destruct (parse_version (relver_of pkgver)); reflexivity.
Qed.

Lemma C6_split_name_witness :
  (exists b, group 1 [(2, $"9"); (1, $"pkg")] = Some b /\
             split_name $"pkg-9"
             = ([], (Some b, group 2 [(2, $"9"); (1, $"pkg")]))) /\
  split_name $"a+b"
  = ([$"cannot parse package name: " ++ $"a+b"], (Some $"a+b", None)).
Proof.
  split.
  - destruct (C6_split_name $"pkg-9") as (H & _). apply H. reflexivity.
  - destruct (C6_split_name $"a+b") as (_ & H & _). apply H. reflexivity.
Defined.

(** ** C7 *)

Lemma rewrite_arch_cases (arch : str) :
  (arch = $"amd64" -> rewrite_arch arch = $"x86_64") /\
  (arch <> $"amd64" -> rewrite_arch arch = arch).
Proof.
  unfold rewrite_arch. destruct (str_eqb arch $"amd64") eqn:E.
  - apply str_eqb_eq in E. split; [reflexivity|congruence].
  - split; [|reflexivity]. intros ->. rewrite str_eqb_refl in E; discriminate.
Qed.

(** C7: every entry that the loop body produces from a triple has the
    architecture [x86_64] when the triple says [amd64] and the triple's
    architecture unchanged otherwise, and an entry is produced whenever the
    release version is parsed; the triple (amd64, foo-1, 2.0.0-1) gives the
    entry of the specification. *)
Theorem C7_architecture (arch pkgname pkgver : str) :
  (forall e, snd (index_entry arch pkgname pkgver) = Ok e ->
     (arch = $"amd64" -> architecture e = $"x86_64") /\
     (arch <> $"amd64" -> architecture e = arch)) /\
  (forall pv, parse_version (relver_of pkgver) = Ok pv ->
     exists e, snd (index_entry arch pkgname pkgver) = Ok e /\
               architecture e = rewrite_arch arch) /\
  index_entry $"amd64" $"foo-1" $"2.0.0-1"
  = ([], Ok (mkEntry (Some $"foo") (Some $"1") $"foo-1" $"2.0.0"
               (mkVersion 2 0 0 None 0 []) $"1" $"x86_64" $"foo-1=2.0.0-1")).
Proof.
  split; [|split; [|reflexivity]].
  - intros e He. apply index_entry_ok in He as (pv & _ & ->). cbn.
    apply rewrite_arch_cases.
  - intros pv Hpv. rewrite index_entry_eq, Hpv; cbn. eauto.
Qed.

Lemma C7_architecture_witness :
  exists e, snd (index_entry $"arm64" $"foo-1" $"2.0.0-1") = Ok e /\
            architecture e = $"arm64".
Proof.
  destruct (C7_architecture $"arm64" $"foo-1" $"2.0.0-1") as (H & _).
  eexists; split; [reflexivity|].
  apply (H _ eq_refl). discriminate.
Defined.

(** ** C8 *)

(** C8: in every entry that the loop body produces, and so in every entry
    of a built index, the name, an equals sign, the version, a hyphen and
    the revision make up the installref. *)
Theorem C8_installref :
  (forall arch pkgname pkgver e,
     snd (index_entry arch pkgname pkgver) = Ok e ->
     name e ++ $"=" ++ version e ++ $"-" ++ revision e = installref e) /\
  (forall stdout es,
     snd (build_index stdout) = Ok es ->
     Forall (fun e => name e ++ $"=" ++ version e ++ $"-" ++ revision e
                      = installref e) es).
Proof.
  assert (H : forall arch pkgname pkgver e,
             snd (index_entry arch pkgname pkgver) = Ok e ->
             name e ++ $"=" ++ version e ++ $"-" ++ revision e = installref e).
  { intros arch pkgname pkgver e He.
    apply index_entry_ok in He as (pv & _ & ->). reflexivity. }
  split; [exact H|].
  intros stdout es. unfold build_index. apply index_lines_Forall.
  intros line arch pkgname pkgver e _ _. apply H.
Qed.

Lemma C8_installref_witness :
  exists e, snd (index_entry $"amd64" $"foo-1" $"2.0.0-1") = Ok e /\
            name e ++ $"=" ++ version e ++ $"-" ++ revision e = installref e.
Proof.
  eexists; split; [reflexivity|].
  apply (proj1 C8_installref $"amd64" $"foo-1" $"2.0.0-1"). reflexivity.
Defined.

(** ** C9 *)

Lemma rfind_split_last (sep : ascii) (h t : str) :
  ~ In sep t -> rfind_split sep (h ++ sep :: t) = Some (h, t).
Proof.
  intros Hn. induction h as [|x h IH].
  - cbn [List.app rfind_split].
    apply rfind_split_none in Hn. rewrite Hn, Ascii.eqb_refl. reflexivity.
  - rewrite <- app_comm_cons. cbn [rfind_split]. rewrite IH. reflexivity.
Qed.

(** C9: the loop body splits the version-with-revision string at its last
    hyphen: when the string has a hyphen, the release version, a hyphen and
    the revision make up the string and the revision has no hyphen; when it
    has none, the release version is empty and the revision is the whole
    string.  These two pieces are what the loop body works with: for a
    string [h-t] where [t] has no hyphen it hands [h] to [parse_version]
    and, when that returns, produces the entry with version [h], revision
    [t] and installref [name=h-t]; for a string without a hyphen it hands
    the empty string to [parse_version], which raises. *)
Theorem C9_rpartition (pkgver : str) :
  (In "-"%char pkgver ->
     rpartition "-"%char pkgver = (relver_of pkgver, $"-", revver_of pkgver) /\
     pkgver = relver_of pkgver ++ $"-" ++ revver_of pkgver /\
     ~ In "-"%char (revver_of pkgver)) /\
  (~ In "-"%char pkgver ->
     rpartition "-"%char pkgver = ([], [], pkgver) /\
     relver_of pkgver = [] /\ revver_of pkgver = pkgver) /\
  (forall arch pkgname e,
     snd (index_entry arch pkgname pkgver) = Ok e ->
     version e = relver_of pkgver /\ revision e = revver_of pkgver) /\
  (forall arch pkgname h t,
     pkgver = h ++ $"-" ++ t -> ~ In "-"%char t ->
     rpartition "-"%char pkgver = (h, $"-", t) /\
     index_entry arch pkgname pkgver
     = (fst (split_name pkgname),
        pv <- parse_version h ;;
        Ok (mkEntry (fst (snd (split_name pkgname)))
                    (snd (snd (split_name pkgname)))
                    pkgname h pv t (rewrite_arch arch)
                    (pkgname ++ $"=" ++ h ++ $"-" ++ t)))) /\
  (forall arch pkgname,
     ~ In "-"%char pkgver ->
     index_entry arch pkgname pkgver
     = (fst (split_name pkgname), Raise (cannot_parse []))).
Proof.
  split; [|split; [|split; [|split]]].
  - unfold relver_of, revver_of, rpartition.
    intros Hin. destruct (rfind_split "-"%char pkgver) as [[h t]|] eqn:E.
    + apply rfind_split_some in E as [-> Hn]. cbn. auto.
    + apply rfind_split_none in E. contradiction.
  - unfold relver_of, revver_of, rpartition.
    intros Hn. apply rfind_split_none in Hn. rewrite Hn. cbn. auto.
  - intros arch pkgname e He.
    apply index_entry_ok in He as (pv & _ & ->). split; reflexivity.
  - intros arch pkgname h t -> Hn.
    assert (E : rpartition "-"%char (h ++ $"-" ++ t) = (h, $"-", t)).
    { unfold rpartition.
      change (h ++ $"-" ++ t) with (h ++ "-"%char :: t).
      rewrite (@rfind_split_last "-"%char h t Hn). reflexivity. }
    split; [exact E|].
    rewrite index_entry_eq. unfold relver_of, revver_of. rewrite E.
    reflexivity.
  - intros arch pkgname Hn. rewrite index_entry_eq.
    unfold relver_of, revver_of, rpartition.
    apply rfind_split_none in Hn. rewrite Hn. reflexivity.
Qed.

Lemma C9_rpartition_witness :
  rpartition "-"%char $"1.0-rc-2" = ($"1.0-rc", $"-", $"2") /\
  rpartition "-"%char $"1.0" = ([], [], $"1.0") /\
  index_entry $"arm64" $"foo-7" $"1.2-rc1-5"
  = ([], Ok (mkEntry (Some $"foo") (Some $"7") $"foo-7" $"1.2-rc1"
               (mkVersion 1 2 0 (Some $"rc") 1 []) $"5" $"arm64"
               $"foo-7=1.2-rc1-5")) /\
  index_entry $"arm64" $"foo-7" $"1.0"
  = ([], Raise (cannot_parse [])).
Proof.
  split; [|split; [|split]].
  - destruct (C9_rpartition $"1.0-rc-2") as (H & _).
    apply H. vm_compute. auto 10.
  - destruct (C9_rpartition $"1.0") as (_ & H & _).
    apply H. vm_compute. intuition discriminate.
  - destruct (C9_rpartition $"1.2-rc1-5") as (_ & _ & _ & H & _).
    destruct (H $"arm64" $"foo-7" $"1.2-rc1" $"5" eq_refl) as [_ ->].
    + vm_compute. intuition discriminate.
    + reflexivity.
  - destruct (C9_rpartition $"1.0") as (_ & _ & _ & _ & H).
    apply H. vm_compute. intuition discriminate.
Defined.

(** ** C10 *)

(** C10: for every package name without a newline, as are all the names
    that the loop takes from the lines of a listing, on which the name
    grammar matches, the split loses nothing: the basename is set, and the
    name is the basename followed, when there is a slot, by a hyphen and
    the slot.  The same holds of every entry of a built index. *)
Theorem C10_faithful_split :
  (forall pkgname,
     ~ In newline pkgname -> re_match slot_regexp pkgname <> None ->
     faithful_split pkgname (fst (snd (split_name pkgname)))
                    (snd (snd (split_name pkgname)))) /\
  (forall stdout es,
     snd (build_index stdout) = Ok es ->
     Forall (fun e => re_match slot_regexp (name e) <> None ->
                      faithful_split (name e) (basename e) (slot e)) es).
Proof.
  assert (H : forall pkgname,
             ~ In newline pkgname -> re_match slot_regexp pkgname <> None ->
             faithful_split pkgname (fst (snd (split_name pkgname)))
                            (snd (snd (split_name pkgname)))).
  { intros pkgname Hn Hm. unfold split_name.
    destruct (re_match slot_regexp pkgname) as [m|] eqn:E; [|congruence].
    destruct (slot_match_groups _ E) as (b & nl & Hb & Hnl & Hs).
    cbn. exists b; split; [exact Hb|].
    rewrite Hs in Hn. rewrite app_assoc in Hn.
    apply no_final_newline in Hn; [|exact Hnl]. subst nl.
    rewrite app_nil_r in Hs. exact Hs. }
  split; [exact H|].
  intros stdout es. unfold build_index. apply index_lines_Forall.
  intros line arch pkgname pkgver e Hl Hu He.
  apply index_entry_ok in He as (pv & _ & ->). cbn.
  apply H. eapply build_index_names; eassumption.
Qed.

Lemma C10_faithful_split_witness :
  faithful_split $"foo-bar-123" (Some $"foo-bar") (Some $"123").
Proof.
  apply (proj1 C10_faithful_split $"foo-bar-123").
  - vm_compute. intuition discriminate.
  - discriminate.
Defined.

(** * Further properties of the code *)

(** ** Completeness of the matcher *)

Lemma den_not_nullable r w c c' :
  nullable r = false -> den r w c c' -> w <> [].
Proof.
  revert w c c';
    induction r as [p|l|r1 IH1 r2 IH2|r1 IH1 r2 IH2|r1 IH1|r1 IH1|r1 IH1|i r1 IH1];
    simpl; intros w c c' Hn H; try discriminate.
  - destruct H as (x & -> & _); discriminate.
  - destruct H as [-> _]. destruct l; [discriminate|discriminate].
  - destruct H as (w1 & w2 & c1 & -> & H1 & H2).
    apply andb_false_iff in Hn as [Hn|Hn].
    + specialize (IH1 _ _ _ Hn H1). destruct w1; [congruence|discriminate].
    + specialize (IH2 _ _ _ Hn H2).
      destruct w1; [exact IH2|discriminate].
  - apply orb_false_iff in Hn as [Hn1 Hn2]. destruct H; eauto.
  - destruct H as (c1 & H & _); eauto.
Qed.

Section Completeness.
Variable A : Type.
Implicit Types (k : cont A) (s w : str) (c : caps).

Lemma orelse_is_some (x y : option A) :
  (exists a, x = Some a) \/ (exists a, y = Some a) ->
  exists a, orelse x y = Some a.
Proof.
  destruct x as [a|]; simpl; [eauto|].
  intros [[a H]|H]; [discriminate|exact H].
Qed.

(** Whenever a pattern can match a prefix of the subject so that the rest
    of the pattern goes through, the matcher finds some match. *)
Lemma exec_complete r :
  repeats_consume r = true ->
  forall w c c' s' k,
    den r w c c' -> (exists a, k s' c' = Some a) ->
    exists a, exec r (w ++ s') c k = Some a.
Proof.
  induction r as [p|l|r1 IH1 r2 IH2|r1 IH1 r2 IH2|r1 IH1|r1 IH1|r1 IH1|i r1 IH1];
    intros Hr w c c' s' k H Hk.
  - destruct H as (x & -> & Hp & ->). simpl. rewrite Hp. exact Hk.
  - destruct H as [-> ->]. simpl. rewrite strip_prefix_app. exact Hk.
  - simpl in Hr; apply andb_true_iff in Hr as [Hr1 Hr2].
    destruct H as (w1 & w2 & c1 & -> & H1 & H2).
    rewrite <- app_assoc. simpl.
    apply (IH1 Hr1 _ _ _ _ _ H1). apply (IH2 Hr2 _ _ _ _ _ H2 Hk).
  - simpl in Hr; apply andb_true_iff in Hr as [Hr1 Hr2].
    simpl. apply orelse_is_some. destruct H as [H|H].
    + left; apply (IH1 Hr1 _ _ _ _ _ H Hk).
    + right; apply (IH2 Hr2 _ _ _ _ _ H Hk).
  - simpl in Hr. simpl. apply orelse_is_some. destruct H as [H|[-> ->]].
    + left; apply (IH1 Hr _ _ _ _ _ H Hk).
    + right; exact Hk.
  - simpl in Hr; apply andb_true_iff in Hr as [Hn Hr].
    apply negb_true_iff in Hn. simpl in H.
    induction H as [c|w1 w2 c c1 c2 H1 _ IH].
    + rewrite exec_star. apply orelse_is_some; right; exact Hk.
    + rewrite exec_star. apply orelse_is_some; left.
      rewrite <- app_assoc. apply (IH1 Hr _ _ _ _ _ H1).
      unfold progress.
      pose proof (@den_not_nullable _ _ _ _ Hn H1) as Hw.
      replace (length (w2 ++ s') <? length (w1 ++ w2 ++ s')) with true.
      * apply IH; exact Hk.
      * symmetry; apply Nat.ltb_lt. rewrite (length_app w1).
        destruct w1; [congruence|simpl; lia].
  - simpl in Hr; apply andb_true_iff in Hr as [Hn Hr].
    apply negb_true_iff in Hn. simpl in H.
    induction H as [c|w1 w2 c c1 c2 H1 _ IH].
    + rewrite exec_star_lazy. apply orelse_is_some; left; exact Hk.
    + rewrite exec_star_lazy. apply orelse_is_some; right.
      rewrite <- app_assoc. apply (IH1 Hr _ _ _ _ _ H1).
      unfold progress.
      pose proof (@den_not_nullable _ _ _ _ Hn H1) as Hw.
      replace (length (w2 ++ s') <? length (w1 ++ w2 ++ s')) with true.
      * apply IH; exact Hk.
      * symmetry; apply Nat.ltb_lt. rewrite (length_app w1).
        destruct w1; [congruence|simpl; lia].
  - simpl in Hr. destruct H as (c1 & H & ->). simpl.
    apply (IH1 Hr _ _ _ _ _ H). rewrite consumed_app. exact Hk.
Qed.
End Completeness.

(** A subject is matched exactly when the pattern can match it up to the
    final newline. *)
Lemma re_match_iff (r : regex) (s : str) :
  repeats_consume r = true ->
  (re_match r s <> None <->
   exists w nl v, s = w ++ nl /\ (nl = [] \/ nl = [newline]) /\ den r w [] v).
Proof.
  intros Hr; split.
  - destruct (re_match r s) as [v|] eqn:E; [|congruence]. intros _.
    apply re_match_sound in E as (w & nl & Hs & Hnl & Hd). eauto 6.
  - intros (w & nl & v & -> & Hnl & Hd).
    destruct (@exec_complete caps r Hr w [] v nl
                (fun s' c' => if at_end s' then Some c' else None) Hd)
      as [a Ha].
    + destruct Hnl as [-> | ->]; simpl; eauto.
    + unfold re_match. rewrite Ha. discriminate.
Qed.

(** ** The language of the version pattern *)

Lemma iter_chars_intro (p : ascii -> bool) w c :
  forallb p w = true -> iter (den (Chars p)) w c c.
Proof.
  induction w as [|x w IH]; simpl; intros H; [constructor|].
  apply andb_true_iff in H as [Hx Hw].
  change (x :: w) with ([x] ++ w).
  eapply iter_cons; [simpl; eauto|auto].
Qed.

Lemma den_run_intro (p : ascii -> bool) w c :
  is_run p w = true -> den (Plus (Chars p)) w c c.
Proof.
  unfold is_run. destruct w as [|x w]; [discriminate|]. simpl.
  intros H; apply andb_true_iff in H as [Hx Hw].
  exists [x], w, c. repeat split; [eauto|apply iter_chars_intro; exact Hw].
Qed.

Lemma den_run (p : ascii -> bool) w c c' :
  den (Plus (Chars p)) w c c' -> is_run p w = true /\ c' = c.
Proof. apply den_plus_chars. Qed.

Lemma iter_dotted (p : ascii -> bool) w c c' :
  iter (den (Cat (Lit $".") (Plus (Chars p)))) w c c' ->
  c' = c /\ exists segs, Forall (fun x => is_run p x = true) segs /\
                         w = concat (map (cons "."%char) segs).
Proof.
  induction 1 as [|w1 w2 c c1 c2 H1 _ (-> & segs & Hs & ->)].
  - split; [reflexivity|]. exists []; auto.
  - destruct H1 as (a & b & c0 & -> & [-> ->] & Hn).
    apply den_run in Hn as [Hn ->].
    split; [reflexivity|]. exists (b :: segs); split; [auto|reflexivity].
Qed.

Lemma iter_dotted_intro (p : ascii -> bool) segs c :
  Forall (fun x => is_run p x = true) segs ->
  iter (den (Cat (Lit $".") (Plus (Chars p))))
       (concat (map (cons "."%char) segs)) c c.
Proof.
  induction 1 as [|w segs Hw _ IH]; [constructor|].
  cbn [map concat].
  change (("."%char :: w) ++ concat (map (cons "."%char) segs))
    with (("."%char :: w) ++ concat (map (cons "."%char) segs)).
  eapply iter_cons; [|exact IH].
  exists $".", w, c. repeat split. apply den_run_intro; exact Hw.
Qed.

Lemma den_release_intro segs c :
  segs <> [] -> Forall (fun w => is_number w = true) segs ->
  den release_re (join "."%char segs) c
      ((g_release, join "."%char segs) :: c).
Proof.
  intros Hne Hs. destruct Hs as [|w segs Hw Hs]; [now elim Hne|].
  exists c; split; [|reflexivity]. rewrite join_cons.
  exists w, (concat (map (cons "."%char) segs)), c. split; [reflexivity|].
  split; [apply den_run_intro; exact Hw|].
  apply (iter_dotted_intro is_digit). exact Hs.
Qed.

Lemma den_opt_lit_intro l w c :
  optional l w -> den (Opt (Lit l)) w c c.
Proof. intros [-> | ->]; simpl; auto. Qed.

Lemma den_opt_number_intro i n c :
  opt_number n ->
  exists c', den (Opt (Group i (Plus (Chars is_digit)))) n c c'.
Proof.
  intros [->|Hn].
  - exists c; right; auto.
  - eexists; left. exists c; split; [apply den_run_intro; exact Hn|reflexivity].
Qed.

Lemma den_stage_tags_intro tag c :
  In tag grammar_tags -> den stage_tags tag c c.
Proof.
  unfold grammar_tags, stage_tags; simpl; intros H.
  repeat (destruct H as [<-|H]; [auto 12|]). destruct H.
Qed.

Lemma den_pre_intro w c : pre_marker w -> exists c', den pre_re w c c'.
Proof.
  intros (hy & tag & dot & n & Hhy & Htag & Hdot & Hn & ->).
  destruct (den_opt_number_intro g_pre_n ((g_pre_l, tag) :: (4, tag) :: c) Hn)
    as [c' Hc'].
  eexists. exists c'. split; [|reflexivity].
  exists hy, (tag ++ dot ++ n), c. split; [reflexivity|].
  split; [apply den_opt_lit_intro; exact Hhy|].
  exists tag, (dot ++ n), ((g_pre_l, tag) :: (4, tag) :: c).
  split; [reflexivity|]. split.
  - eexists; split; [|reflexivity]. eexists; split; [|reflexivity].
    apply den_stage_tags_intro; exact Htag.
  - exists dot, n, ((g_pre_l, tag) :: (4, tag) :: c).
    split; [reflexivity|]. split; [apply den_opt_lit_intro; exact Hdot|].
    exact Hc'.
Qed.

Lemma den_dev_intro w c : dev_marker w -> exists c', den dev_re w c c'.
Proof.
  intros (d1 & d2 & n & Hd1 & Hd2 & Hn & ->).
  destruct (den_opt_number_intro g_dev_n ((g_dev_l, $"dev") :: c) Hn)
    as [c' Hc'].
  eexists. exists c'. split; [|reflexivity].
  exists d1, ($"dev" ++ d2 ++ n), c. split; [reflexivity|].
  split; [apply den_opt_lit_intro; exact Hd1|].
  exists $"dev", (d2 ++ n), ((g_dev_l, $"dev") :: c).
  split; [reflexivity|]. split.
  - eexists; split; [|reflexivity]. split; reflexivity.
  - exists d2, n, ((g_dev_l, $"dev") :: c).
    split; [reflexivity|]. split; [apply den_opt_lit_intro; exact Hd2|].
    exact Hc'.
Qed.

Lemma den_local_intro w c : local_part w -> exists c', den local_re w c c'.
Proof.
  intros (segs & Hne & Hs & ->).
  destruct Hs as [|x segs Hx Hs]; [now elim Hne|].
  eexists. exists $"+", (join "."%char (x :: segs)), c.
  split; [reflexivity|]. split; [split; reflexivity|].
  exists c; split; [|reflexivity]. rewrite join_cons.
  exists x, (concat (map (cons "."%char) segs)), c. split; [reflexivity|].
  split; [apply den_run_intro; exact Hx|].
  apply (iter_dotted_intro is_lower_alnum). exact Hs.
Qed.

Lemma den_local_part w c c' : den local_re w c c' -> local_part w.
Proof.
  intros (p & loc & c1 & -> & [-> ->] & c2 & H & ->).
  destruct H as (x & rest & c3 & -> & Hx & Hr).
  apply den_run in Hx as [Hx ->].
  apply iter_dotted in Hr as (_ & segs & Hs & ->).
  exists (x :: segs). rewrite join_cons.
  repeat split; [discriminate|auto].
Qed.

Lemma wf_ordinal_opt_number (n : option str) :
  wf_ordinal n -> opt_number (opt_text n).
Proof. destruct n; simpl; [right; assumption|left; reflexivity]. Qed.

Lemma den_version_parts w v :
  den version_regexp w [] v ->
  exists segs pre dev loc,
    segs <> [] /\ Forall (fun w => is_number w = true) segs /\
    (pre = [] \/ pre_marker pre) /\ (dev = [] \/ dev_marker dev) /\
    (loc = [] \/ local_part loc) /\
    w = join "."%char segs ++ pre ++ dev ++ loc.
Proof.
  intros (wr & w1 & c1 & -> & Hr & wp & w2 & c2 & -> & Hp
          & wd & wl & c3 & -> & Hd & Hl).
  apply den_release_re in Hr as (segs & Hne & Hs & -> & ->).
  exists segs, wp, wd, wl.
  repeat split; auto.
  - destruct Hp as [Hp|[-> _]]; [right|left; reflexivity].
    apply den_pre_re in Hp as (tag & n & (Ht & Hn & hy & dot & Hh & Hdt & ->) & _).
    exists hy, tag, dot, (opt_text n).
    auto 6 using wf_ordinal_opt_number.
  - destruct Hd as [Hd|[-> _]]; [right|left; reflexivity].
    apply den_dev_re in Hd as (n & (Hn & d1 & d2 & H1 & H2 & ->) & _).
    exists d1, d2, (opt_text n). auto 6 using wf_ordinal_opt_number.
  - destruct Hl as [Hl|[-> _]]; [right|left; reflexivity].
    eapply den_local_part; exact Hl.
Qed.

Lemma version_string_den segs pre dev loc :
  segs <> [] -> Forall (fun w => is_number w = true) segs ->
  (pre = [] \/ pre_marker pre) -> (dev = [] \/ dev_marker dev) ->
  (loc = [] \/ local_part loc) ->
  exists v, den version_regexp (join "."%char segs ++ pre ++ dev ++ loc) [] v.
Proof.
  intros Hne Hs Hp Hd Hl.
  pose proof (den_release_intro [] Hne Hs) as Hr.
  set (c1 := [(g_release, join "."%char segs)]) in *.
  assert (exists c2, den (Opt pre_re) pre c1 c2) as [c2 H2].
  { destruct Hp as [->|Hp]; [exists c1; right; auto|].
    destruct (den_pre_intro c1 Hp) as [c2 H]. exists c2; left; exact H. }
  assert (exists c3, den (Opt dev_re) dev c2 c3) as [c3 H3].
  { destruct Hd as [->|Hd]; [exists c2; right; auto|].
    destruct (den_dev_intro c2 Hd) as [c3 H]. exists c3; left; exact H. }
  assert (exists c4, den (Opt local_re) loc c3 c4) as [c4 H4].
  { destruct Hl as [->|Hl]; [exists c3; right; auto|].
    destruct (den_local_intro c3 Hl) as [c4 H]. exists c4; left; exact H. }
  exists c4. exists (join "."%char segs), (pre ++ dev ++ loc), c1.
  split; [reflexivity|]. split; [exact Hr|].
  exists pre, (dev ++ loc), c2. split; [reflexivity|]. split; [exact H2|].
  exists dev, loc, c3. auto.
Qed.

(** X1: [version_regexp] accepts exactly the strings made of a release of
    dot-separated numbers, an optional pre-release marker (optional hyphen,
    one of the eight stage tags, optional dot, optional number), an
    optional development marker (optional dot, [dev], optional dot,
    optional number), an optional local part (a plus sign and dot-separated
    runs of lower-case letters and digits) and at most one final newline;
    [parse_version] raises its cannot-parse error on all other strings and
    on no string of this form. *)
Theorem X1_version_grammar (ver : str) :
  (re_match version_regexp ver <> None <-> version_string ver) /\
  (parse_version ver = Raise (cannot_parse ver) <-> ~ version_string ver).
Proof.
  assert (H : re_match version_regexp ver <> None <-> version_string ver).
  { rewrite re_match_iff by reflexivity. split.
    - intros (w & nl & v & -> & Hnl & Hv).
      apply den_version_parts in Hv
        as (segs & pre & dev & loc & Hne & Hs & Hp & Hd & Hl & ->).
      exists segs, pre, dev, loc, nl.
      repeat split; auto. rewrite <- !app_assoc. reflexivity.
    - intros (segs & pre & dev & loc & nl & Hne & Hs & Hp & Hd & Hl & Hnl & ->).
      destruct (version_string_den Hne Hs Hp Hd Hl) as [v Hv].
      exists (join "."%char segs ++ pre ++ dev ++ loc), nl, v.
      rewrite <- !app_assoc. auto. }
  split; [exact H|].
  rewrite <- H. unfold parse_version.
  destruct (re_match version_regexp ver) as [v|] eqn:Hm.
  - split; [|intros Hn; exfalso; apply Hn; discriminate].
    intros E. destruct (version_match_groups _ Hm) as (segs & Hg).
    destruct (parse_version_errors (ver:=ver) (v:=v) (segs:=segs) (e:=cannot_parse ver))
      as [[E' _]|[E'|E']]; auto.
    + unfold parse_version; rewrite Hm; exact E.
    + exfalso; exact (stage_message_differs E').
    + discriminate E'.
    + discriminate E'.
  - split; [intros _ Hn; apply Hn; reflexivity|reflexivity].
Qed.

Lemma X1_version_grammar_witness :
  version_string $"1.2.3-rc.4.dev5+ab.cd" /\
  ~ version_string $"1.2.3-rc.4.dev5+Ab".
Proof.
  split.
  - apply (proj1 (X1_version_grammar _)). discriminate.
  - apply (proj2 (X1_version_grammar _)). reflexivity.
Defined.

(** ** The language of the name pattern *)

Lemma iter_hyphen_parts w c c' :
  iter (den (Cat (Lit $"-") (Star (Chars is_alpha)))) w c c' ->
  c' = c /\ exists parts, Forall (fun x => forallb is_alpha x = true) parts /\
                          w = concat (map (cons "-"%char) parts).
Proof.
  induction 1 as [|w1 w2 c c1 c2 H1 _ (-> & parts & Hs & ->)].
  - split; [reflexivity|]. exists []; auto.
  - destruct H1 as (a & b & c0 & -> & [-> ->] & Hb).
    apply iter_chars in Hb as [Hb ->].
    split; [reflexivity|]. exists (b :: parts); split; [auto|reflexivity].
Qed.

Lemma iter_hyphen_parts_intro parts c :
  Forall (fun x => forallb is_alpha x = true) parts ->
  iter (den (Cat (Lit $"-") (Star (Chars is_alpha))))
       (concat (map (cons "-"%char) parts)) c c.
Proof.
  induction 1 as [|w parts Hw _ IH]; [constructor|].
  cbn [map concat]. eapply iter_cons; [|exact IH].
  exists $"-", w, c. repeat split. apply iter_chars_intro; exact Hw.
Qed.

Lemma den_basename_re b c c' :
  den basename_re b c c' <-> basename_string b /\ c' = c.
Proof.
  split.
  - intros (w & rest & c1 & -> & Hw & Hr).
    apply den_run in Hw as [Hw ->].
    apply iter_hyphen_parts in Hr as (-> & parts & Hp & ->).
    split; [|reflexivity]. exists w, parts; auto.
  - intros [(w & parts & Hw & Hp & ->) ->].
    exists w, (concat (map (cons "-"%char) parts)), c.
    split; [reflexivity|]. split; [apply den_run_intro; exact Hw|].
    apply iter_hyphen_parts_intro; exact Hp.
Qed.

Lemma den_slot_re sl c c' :
  den slot_re sl c c' <-> slot_string sl /\ c' = c.
Proof.
  split.
  - intros (n & rest & c1 & -> & Hn & stage & devp & c2 & -> & Hs & Hd).
    apply den_run in Hn as [Hn ->].
    assert ((stage = [] \/
             exists t m, In t [$"alpha"; $"beta"; $"rc"] /\
                         is_number m = true /\ stage = $"-" ++ t ++ m)
            /\ c2 = c) as [Hstage ->].
    { destruct Hs as [(h & r & c3 & -> & [-> ->] & t & m & c4 & -> & Ht & Hm)
                     |[-> ->]]; [|auto].
      apply den_run in Hm as [Hm ->].
      assert (In t [$"alpha"; $"beta"; $"rc"] /\ c4 = c) as [Hin ->].
      { simpl in Ht. destruct Ht as [[-> ->]|[[-> ->]|[-> ->]]]; simpl; auto. }
      split; [|reflexivity]. right. exists t, m. auto. }
    assert ((devp = [] \/ exists m, is_number m = true /\ devp = $"-dev" ++ m)
            /\ c' = c) as [Hdev ->].
    { destruct Hd as [(h & m & c3 & -> & [-> ->] & Hm)|[-> ->]]; [|auto].
      apply den_run in Hm as [Hm ->]. split; [|reflexivity].
      right; exists m; auto. }
    split; [|reflexivity]. exists n, stage, devp. auto.
  - intros [(n & stage & devp & Hn & Hs & Hd & ->) ->].
    exists n, (stage ++ devp), c. split; [reflexivity|].
    split; [apply den_run_intro; exact Hn|].
    exists stage, devp, c. split; [reflexivity|]. split.
    + destruct Hs as [->|(t & m & Ht & Hm & ->)]; [right; auto|left].
      exists $"-", (t ++ m), c. split; [reflexivity|].
      split; [split; reflexivity|].
      exists t, m, c. split; [reflexivity|].
      split; [|apply den_run_intro; exact Hm].
      simpl in Ht; simpl.
      destruct Ht as [<-|[<-|[<-|[]]]]; auto.
    + destruct Hd as [->|(m & Hm & ->)]; [right; auto|left].
      exists $"-dev", m, c. split; [reflexivity|].
      split; [split; reflexivity|apply den_run_intro; exact Hm].
Qed.

Lemma den_slot_regexp_iff w m :
  den slot_regexp w [] m <->
  exists b, basename_string b /\
    ((m = [(1, b)] /\ w = b) \/
     (exists sl, slot_string sl /\ m = [(2, sl); (1, b)] /\
                 w = b ++ "-"%char :: sl)).
Proof.
  split.
  - intros (b & w2 & c1 & -> & (c0 & Hb & ->) & Hs).
    apply den_basename_re in Hb as [Hb ->].
    exists b. split; [exact Hb|].
    destruct Hs as [(d & sl & c2 & -> & [-> ->] & c3 & Hs & ->)|[-> ->]].
    + apply den_slot_re in Hs as [Hs ->]. right; exists sl; auto.
    + left; rewrite app_nil_r; auto.
  - intros (b & Hb & [[-> ->]|(sl & Hs & -> & ->)]).
    + exists b, [], [(1, b)]. rewrite app_nil_r. split; [reflexivity|].
      split; [|right; auto].
      exists []; split; [apply den_basename_re; auto|reflexivity].
    + exists b, ("-"%char :: sl), [(1, b)]. split; [reflexivity|].
      split; [exists []; split; [apply den_basename_re; auto|reflexivity]|].
      left. exists $"-", sl, [(1, b)]. split; [reflexivity|].
      split; [split; reflexivity|].
      exists [(1, b)]; split; [apply den_slot_re; auto|reflexivity].
Qed.

(** X2: [slot_regexp] accepts exactly the names made of a basename (a run
    of word characters, then any number of hyphens each followed by letters
    only), optionally a hyphen and a slot (a number, optionally a hyphen
    with alpha, beta or rc and a number, optionally [-dev] and a number),
    and at most one final newline; on a match the first group is such a
    basename and the second group, when set, is such a slot. *)
Theorem X2_name_grammar (pkgname : str) :
  (re_match slot_regexp pkgname <> None <-> name_string pkgname) /\
  (forall m, re_match slot_regexp pkgname = Some m ->
     (exists b, group 1 m = Some b /\ basename_string b) /\
     (forall sl, group 2 m = Some sl -> slot_string sl)).
Proof.
  split.
  - rewrite re_match_iff by reflexivity. split.
    + intros (w & nl & v & -> & Hnl & Hv).
      apply den_slot_regexp_iff in Hv as (b & Hb & [[_ ->]|(sl & Hs & _ & ->)]).
      * exists b, [], nl. auto.
      * exists b, ("-"%char :: sl), nl. rewrite <- app_assoc.
        repeat split; eauto.
    + intros (b & suffix & nl & Hb & Hs & Hnl & ->).
      destruct Hs as [->|(sl & Hs & ->)].
      * exists b, nl, [(1, b)]. repeat split; auto.
        apply den_slot_regexp_iff. exists b; auto.
      * exists (b ++ "-"%char :: sl), nl, [(2, sl); (1, b)].
        rewrite <- app_assoc. repeat split; auto.
        apply den_slot_regexp_iff. exists b; split; [exact Hb|].
        right; exists sl; auto.
  - intros m Hm. apply re_match_sound in Hm as (w & nl & _ & _ & Hd).
    apply den_slot_regexp_iff in Hd as (b & Hb & [[-> _]|(sl & Hs & -> & _)]).
    + split; [exists b; auto|]. discriminate.
    + split; [exists b; auto|]. intros sl' E; inversion E; subst; exact Hs.
Qed.

Lemma X2_name_grammar_witness :
  name_string $"foo-bar-12-rc3-dev4" /\
  slot_string $"12-rc3-dev4".
Proof.
  destruct (X2_name_grammar $"foo-bar-12-rc3-dev4") as [H1 H2]. split.
  - apply H1. discriminate.
  - destruct (H2 _ eq_refl) as [_ H]. apply H. reflexivity.
Defined.

Lemma split_name_fallback (pkgname : str) :
  re_match slot_regexp pkgname = None -> split_name pkgname = fallback pkgname.
Proof. intros H; unfold split_name; rewrite H; reflexivity. Qed.

Lemma digit_name_char x : is_digit x = true -> name_char x = true.
Proof.
  unfold name_char, is_word; intros ->. rewrite orb_true_r. reflexivity.
Qed.

Lemma alpha_name_char x : is_alpha x = true -> name_char x = true.
Proof. unfold name_char, is_word; intros ->. reflexivity. Qed.

Lemma word_name_char x : is_word x = true -> name_char x = true.
Proof. unfold name_char; intros ->. reflexivity. Qed.

Lemma forallb_impl (p q : ascii -> bool) (w : str) :
  (forall x, p x = true -> q x = true) ->
  forallb p w = true -> forallb q w = true.
Proof.
  intros Hpq; induction w as [|x w IH]; simpl; [reflexivity|].
  intros H; apply andb_true_iff in H as [Hx Hw].
  rewrite (Hpq _ Hx), (IH Hw). reflexivity.
Qed.

Lemma number_name_chars n : is_number n = true -> forallb name_char n = true.
Proof.
  unfold is_number; intros H; apply andb_true_iff in H as [_ H].
  eapply forallb_impl; [apply digit_name_char|exact H].
Qed.

Lemma hyphen_parts_name_chars parts :
  Forall (fun x => forallb is_alpha x = true) parts ->
  forallb name_char (concat (map (cons "-"%char) parts)) = true.
Proof.
  induction 1 as [|w parts Hw _ IH]; [reflexivity|].
  cbn [map concat]. rewrite <- app_comm_cons. cbn [forallb].
  rewrite forallb_app, IH, andb_true_r.
  rewrite (@forallb_impl _ _ _ alpha_name_char Hw). reflexivity.
Qed.

Lemma basename_chars b :
  basename_string b ->
  exists x rest, b = x :: rest /\ is_word x = true /\
                 forallb name_char rest = true.
Proof.
  intros (w & parts & Hw & Hp & ->).
  unfold is_run in Hw. destruct w as [|x w]; [discriminate|].
  simpl in Hw; apply andb_true_iff in Hw as [Hx Hw].
  exists x, (w ++ concat (map (cons "-"%char) parts)).
  split; [reflexivity|]. split; [exact Hx|].
  rewrite forallb_app, (@forallb_impl _ _ _ word_name_char Hw).
  apply hyphen_parts_name_chars; exact Hp.
Qed.

Lemma slot_chars sl : slot_string sl -> forallb name_char sl = true.
Proof.
  intros (n & stage & devp & Hn & Hs & Hd & ->).
  rewrite !forallb_app, (number_name_chars _ Hn). simpl.
  apply andb_true_iff; split.
  - destruct Hs as [->|(t & m & Ht & Hm & ->)]; [reflexivity|].
    rewrite !forallb_app, (number_name_chars _ Hm), andb_true_r.
    simpl in Ht. destruct Ht as [<-|[<-|[<-|[]]]]; reflexivity.
  - destruct Hd as [->|(m & Hm & ->)]; [reflexivity|].
    rewrite forallb_app, (number_name_chars _ Hm). reflexivity.
Qed.

Lemma name_string_chars pkgname :
  name_string pkgname ->
  exists x w nl, pkgname = x :: w ++ nl /\ is_word x = true /\
                 forallb name_char w = true /\ (nl = [] \/ nl = [newline]).
Proof.
  intros (b & suffix & nl & Hb & Hs & Hnl & ->).
  apply basename_chars in Hb as (x & rest & -> & Hx & Hrest).
  exists x, (rest ++ suffix), nl. rewrite <- app_assoc.
  split; [reflexivity|]. split; [exact Hx|]. split; [|exact Hnl].
  rewrite forallb_app, Hrest. simpl.
  destruct Hs as [->|(sl & Hs & ->)]; [reflexivity|].
  simpl. apply slot_chars; exact Hs.
Qed.

Lemma re_match_slot_chars pkgname :
  re_match slot_regexp pkgname <> None ->
  exists x w nl, pkgname = x :: w ++ nl /\ is_word x = true /\
                 forallb name_char w = true /\ (nl = [] \/ nl = [newline]).
Proof.
  intros H. apply name_string_chars.
  rewrite re_match_iff in H by reflexivity.
  destruct H as (w & nl & v & -> & Hnl & Hv).
  apply den_slot_regexp_iff in Hv as (b & Hb & [[_ ->]|(sl & Hs & _ & ->)]).
  - exists b, [], nl. auto.
  - exists b, ("-"%char :: sl), nl. rewrite <- app_assoc. repeat split; eauto.
Qed.

(** X3: a package name is only parsed when it starts with a word character
    and consists of word characters and hyphens, with at most one newline,
    at its end.  A name that contains any other character, and a name that
    is empty or starts with another character than a word character, gets
    the diagnostic and the fallback split. *)
Theorem X3_name_characters (pkgname : str) :
  (forall x, In x pkgname -> name_char x = false -> x <> newline ->
             split_name pkgname = fallback pkgname) /\
  (match pkgname with
   | [] => True
   | x :: _ => is_word x = false
   end -> split_name pkgname = fallback pkgname) /\
  (forall m, re_match slot_regexp pkgname = Some m ->
     exists x w nl, pkgname = x :: w ++ nl /\ is_word x = true /\
                    forallb name_char w = true /\
                    (nl = [] \/ nl = [newline])).
Proof.
  split; [|split].
  - intros x Hin Hx Hnl. apply split_name_fallback.
    destruct (re_match slot_regexp pkgname) as [m|] eqn:E; [exfalso|reflexivity].
    destruct (@re_match_slot_chars pkgname) as (y & w & nl & -> & Hy & Hw & Hn);
      [congruence|].
    destruct Hin as [->|Hin].
    + apply word_name_char in Hy. congruence.
    + apply in_app_or in Hin as [Hin|Hin].
      * rewrite forallb_forall in Hw. apply Hw in Hin. congruence.
      * destruct Hn as [-> | ->]; [destruct Hin|].
        destruct Hin as [<-|[]]. apply Hnl; reflexivity.
  - intros H. apply split_name_fallback.
    destruct (re_match slot_regexp pkgname) as [m|] eqn:E; [exfalso|reflexivity].
    destruct (@re_match_slot_chars pkgname) as (y & w & nl & -> & Hy & _);
      [congruence|]. congruence.
  - intros m Hm. apply re_match_slot_chars. congruence.
Qed.

Lemma X3_name_characters_witness :
  split_name $"lib+plus-1" = fallback $"lib+plus-1" /\
  split_name $"-lib" = fallback $"-lib".
Proof.
  split.
  - apply (proj1 (X3_name_characters $"lib+plus-1") "+"%char).
    + vm_compute; auto 10.
    + reflexivity.
    + discriminate.
  - apply (proj1 (proj2 (X3_name_characters $"-lib"))). reflexivity.
Defined.

(** ** A final newline *)

Lemma strip_prefix_newline (l s : str) :
  existsb (Ascii.eqb newline) l = false -> ~ In newline s ->
  strip_prefix l (s ++ [newline])
  = option_map (fun s' => s' ++ [newline]) (strip_prefix l s).
Proof.
  revert s; induction l as [|y l IH]; intros s Hl Hs; [reflexivity|].
  cbn [existsb] in Hl; apply orb_false_iff in Hl as [Hy Hl].
  destruct s as [|x s];
    [change ([] ++ [newline]) with [newline]|rewrite <- app_comm_cons];
    cbn [strip_prefix option_map].
  - rewrite Ascii.eqb_sym, Hy. reflexivity.
  - destruct (Ascii.eqb y x); [|reflexivity].
    apply IH; [exact Hl|]. intros H; apply Hs; right; exact H.
Qed.

Lemma strip_prefix_In (l s s' : str) (x : ascii) :
  strip_prefix l s = Some s' -> In x s' -> In x s.
Proof.
  intros H Hx. apply strip_prefix_inv in H; subst.
  apply in_or_app; right; exact Hx.
Qed.

Lemma consumed_newline (s s' : str) :
  length s' <= length s ->
  consumed (s ++ [newline]) (s' ++ [newline]) = consumed s s'.
Proof.
  intros H. unfold consumed. rewrite !length_app. simpl.
  replace (length s + 1 - (length s' + 1)) with (length s - length s') by lia.
  rewrite firstn_app.
  replace (length s - length s' - length s) with 0 by lia.
  simpl. apply app_nil_r.
Qed.

Section Newline.
Variable A : Type.
Implicit Types (k : cont A) (s : str) (c : caps).

Lemma not_in_tail (x y : ascii) s : ~ In x (y :: s) -> ~ In x s.
Proof. intros H Hin; apply H; right; exact Hin. Qed.

(** A pattern that accepts no newline does on a subject with a final
    newline what it does without it, as long as the rest of the pattern
    does. *)
Lemma exec_newline r :
  avoids newline r = true ->
  forall s c k k',
    ~ In newline s ->
    (forall s' c', ~ In newline s' -> length s' <= length s ->
                   k' (s' ++ [newline]) c' = k s' c') ->
    exec r (s ++ [newline]) c k' = exec r s c k.
Proof.
  induction r as [p|l|r1 IH1 r2 IH2|r1 IH1 r2 IH2|r1 IH1|r1 IH1|r1 IH1|i r1 IH1];
    intros Ha s c k k' Hs Hk; cbn [avoids] in Ha.
  - apply negb_true_iff in Ha.
    destruct s as [|x s];
      [change ([] ++ [newline]) with [newline]|rewrite <- app_comm_cons];
      cbn [exec].
    + rewrite Ha. reflexivity.
    + destruct (p x); [|reflexivity].
      apply Hk; [eapply not_in_tail; exact Hs|simpl; lia].
  - apply negb_true_iff in Ha. cbn [exec].
    rewrite (@strip_prefix_newline _ _ Ha Hs).
    destruct (strip_prefix l s) as [s'|] eqn:E; [|reflexivity].
    cbn [option_map]. apply Hk.
    + intros H; apply Hs. eapply strip_prefix_In; eassumption.
    + apply strip_prefix_inv in E; subst. rewrite length_app; lia.
  - apply andb_true_iff in Ha as [Ha1 Ha2]. cbn [exec].
    apply (IH1 Ha1); [exact Hs|]. intros s1 c1 Hs1 Hl1.
    apply (IH2 Ha2); [exact Hs1|]. intros s2 c2 Hs2 Hl2.
    apply Hk; [exact Hs2|lia].
  - apply andb_true_iff in Ha as [Ha1 Ha2]. cbn [exec].
    rewrite (IH1 Ha1 _ _ _ _ Hs Hk), (IH2 Ha2 _ _ _ _ Hs Hk). reflexivity.
  - cbn [exec]. rewrite (IH1 Ha _ _ _ _ Hs Hk), Hk by (auto; lia).
    reflexivity.
  - cbn [exec].
    assert (Hloop : forall n s c,
               ~ In newline s ->
               (forall s' c', ~ In newline s' -> length s' <= length s ->
                              k' (s' ++ [newline]) c' = k s' c') ->
               star_loop (exec r1) k' n (s ++ [newline]) c
               = star_loop (exec r1) k n s c).
    { clear s c Hs Hk. induction n as [|n IHn]; intros s c Hs Hk;
        cbn [star_loop]; [apply Hk; [exact Hs|lia]|].
      rewrite Hk by (auto; lia). f_equal.
      apply (IH1 Ha); [exact Hs|]. intros s' c' Hs' Hl'.
      unfold progress. rewrite !length_app. simpl length.
      replace (length s' + 1 <? length s + 1) with (length s' <? length s)
        by (destruct (length s' <? length s) eqn:E; symmetry;
            [apply Nat.ltb_lt; apply Nat.ltb_lt in E; lia
            |apply Nat.ltb_ge; apply Nat.ltb_ge in E; lia]).
      destruct (length s' <? length s); [|reflexivity].
      apply IHn; [exact Hs'|]. intros s2 c2 Hs2 Hl2. apply Hk; [exact Hs2|lia]. }
    rewrite Hloop by assumption.
    rewrite length_app; simpl length.
    replace (length s + 1) with (S (length s)) by lia.
    apply star_loop_fuel; [apply exec_ext|apply exec_fail|lia].
  - cbn [exec].
    assert (Hloop : forall n s c,
               ~ In newline s ->
               (forall s' c', ~ In newline s' -> length s' <= length s ->
                              k' (s' ++ [newline]) c' = k s' c') ->
               lazy_loop (exec r1) k' n (s ++ [newline]) c
               = lazy_loop (exec r1) k n s c).
    { clear s c Hs Hk. induction n as [|n IHn]; intros s c Hs Hk;
        cbn [lazy_loop]; [apply Hk; [exact Hs|lia]|].
      rewrite Hk by (auto; lia). f_equal.
      apply (IH1 Ha); [exact Hs|]. intros s' c' Hs' Hl'.
      unfold progress. rewrite !length_app. simpl length.
      replace (length s' + 1 <? length s + 1) with (length s' <? length s)
        by (destruct (length s' <? length s) eqn:E; symmetry;
            [apply Nat.ltb_lt; apply Nat.ltb_lt in E; lia
            |apply Nat.ltb_ge; apply Nat.ltb_ge in E; lia]).
      destruct (length s' <? length s); [|reflexivity].
      apply IHn; [exact Hs'|]. intros s2 c2 Hs2 Hl2. apply Hk; [exact Hs2|lia]. }
    rewrite Hloop by assumption.
    rewrite length_app; simpl length.
    replace (length s + 1) with (S (length s)) by lia.
    apply lazy_loop_fuel; [apply exec_ext|apply exec_fail|lia].
  - cbn [exec]. apply (IH1 Ha); [exact Hs|]. intros s' c' Hs' Hl'.
    rewrite (@consumed_newline _ _ Hl'). apply Hk; assumption.
Qed.
End Newline.

Lemma at_end_newline (s : str) :
  ~ In newline s -> at_end (s ++ [newline]) = at_end s.
Proof.
  destruct s as [|x [|y s]]; intros H.
  - reflexivity.
  - change (false = Ascii.eqb x newline). symmetry. apply Ascii.eqb_neq.
    intros ->. apply H; left; reflexivity.
  - reflexivity.
Qed.

Lemma re_match_newline (r : regex) (s : str) :
  avoids newline r = true -> ~ In newline s ->
  re_match r (s ++ [newline]) = re_match r s.
Proof.
  intros Ha Hs. unfold re_match. apply exec_newline; [exact Ha|exact Hs|].
  intros s' c' Hs' _. rewrite (at_end_newline _ Hs'). reflexivity.
Qed.

Lemma parse_stage_ok_any (ver ver' : str) (v : caps) st :
  parse_stage ver v = Ok st -> parse_stage ver' v = Ok st.
Proof.
  unfold parse_stage.
  destruct (truthy (group g_pre v)); [|auto].
  destruct (opt_in (group g_pre_l v) [$"a"; $"alpha"]); [auto|].
  destruct (opt_in (group g_pre_l v) [$"b"; $"beta"]); [auto|].
  destruct (opt_in (group g_pre_l v) [$"c"; $"rc"]); [auto|].
  discriminate.
Qed.

Lemma parse_groups_ok_any (ver ver' : str) (v : caps) pv :
  parse_groups ver v = Ok pv -> parse_groups ver' v = Ok pv.
Proof.
  unfold parse_groups.
  destruct (parse_stage ver v) as [st|e] eqn:E; [|discriminate].
  rewrite (@parse_stage_ok_any ver ver' v st E). auto.
Qed.

(** X4: both patterns end in [$], which also holds just before a newline
    that ends the subject: a string without newlines is matched, with the
    same groups, whether or not one newline follows it.  So
    [parse_version] returns the same version for a string and for the
    string followed by a newline, and a name followed by a newline is
    split like the name itself, the newline being dropped. *)
Theorem X4_final_newline (s : str) :
  ~ In newline s ->
  re_match version_regexp (s ++ [newline]) = re_match version_regexp s /\
  re_match slot_regexp (s ++ [newline]) = re_match slot_regexp s /\
  (forall pv, parse_version (s ++ [newline]) = Ok pv <->
              parse_version s = Ok pv) /\
  (re_match slot_regexp s <> None ->
   split_name (s ++ [newline]) = split_name s).
Proof.
  intros Hs.
  assert (Hv := @re_match_newline version_regexp s eq_refl Hs).
  assert (Hn := @re_match_newline slot_regexp s eq_refl Hs).
  split; [exact Hv|]. split; [exact Hn|]. split.
  - intros pv. unfold parse_version. rewrite Hv.
    destruct (re_match version_regexp s) as [v|]; [|split; discriminate].
    split; apply parse_groups_ok_any.
  - intros Hm. unfold split_name. rewrite Hn.
    destruct (re_match slot_regexp s); [reflexivity|congruence].
Qed.

Lemma X4_final_newline_witness :
  parse_version ($"1.2.3rc4" ++ [newline])
  = Ok (mkVersion 1 2 3 (Some $"rc") 4 []) /\
  split_name ($"foo-1" ++ [newline]) = ([], (Some $"foo", Some $"1")).
Proof.
  destruct (X4_final_newline $"1.2.3rc4") as (_ & _ & H & _).
  - vm_compute. intuition discriminate.
  - split; [apply H; reflexivity|].
    destruct (X4_final_newline $"foo-1") as (_ & _ & _ & H').
    + vm_compute. intuition discriminate.
    + rewrite H'; [reflexivity|discriminate].
Defined.

(** ** The versions that parse_version returns *)

Lemma digit_val_bounds (x : ascii) :
  is_digit x = true -> (0 <= digit_val x <= 9)%Z.
Proof.
  unfold is_digit, in_range, digit_val. intros H.
  apply andb_true_iff in H as [H1 H2].
  apply Nat.leb_le in H1, H2. lia.
Qed.

Lemma decimal_nonneg (w : str) :
  forallb is_digit w = true -> (0 <= decimal w)%Z.
Proof.
  unfold decimal.
  assert (H : forall acc, (0 <= acc)%Z -> forallb is_digit w = true ->
                          (0 <= fold_left
                                  (fun a x => (10 * a + digit_val x)%Z) w acc)%Z).
  { induction w as [|x w IH]; intros acc Ha Hw; cbn [fold_left]; [exact Ha|].
    cbn [forallb] in Hw; apply andb_true_iff in Hw as [Hx Hw].
    apply IH; [|exact Hw]. pose proof (digit_val_bounds _ Hx). lia. }
  intros Hw. apply H; [lia|exact Hw].
Qed.

Lemma den_group_other (i : nat) r :
  sets_group i r = false ->
  forall w c c', den r w c c' -> group i c' = group i c.
Proof.
  induction r as [p|l|r1 IH1 r2 IH2|r1 IH1 r2 IH2|r1 IH1|r1 IH1|r1 IH1|j r1 IH1];
    simpl; intros Hn w c c' H.
  - destruct H as (x & _ & _ & ->); reflexivity.
  - destruct H as [_ ->]; reflexivity.
  - apply orb_false_iff in Hn as [H1 H2].
    destruct H as (w1 & w2 & c1 & _ & Ha & Hb).
    rewrite (IH2 H2 _ _ _ Hb). eauto.
  - apply orb_false_iff in Hn as [H1 H2]. destruct H; eauto.
  - destruct H as [H|[_ ->]]; eauto.
  - induction H as [|w1 w2 c c1 c2 Ha _ IH]; [reflexivity|].
    rewrite IH. eauto.
  - induction H as [|w1 w2 c c1 c2 Ha _ IH]; [reflexivity|].
    rewrite IH. eauto.
  - apply orb_false_iff in Hn as [H1 H2].
    destruct H as (c1 & H & ->). simpl. rewrite H1. eauto.
Qed.

Lemma run_no_dot (w : str) :
  is_run is_lower_alnum w = true -> ~ In "."%char w.
Proof.
  unfold is_run; intros H Hin.
  apply andb_true_iff in H as [_ H].
  rewrite forallb_forall in H. apply H in Hin. discriminate Hin.
Qed.

Lemma run_nonempty (p : ascii -> bool) (w : str) :
  is_run p w = true -> w <> [].
Proof. destruct w; [discriminate|discriminate]. Qed.

(** Joining the pieces of a split gives the string back. *)
Lemma join_split_on (sep : ascii) (s : str) :
  join sep (split_on sep s) = s.
Proof.
  induction s as [|x s IH]; [reflexivity|]. simpl.
  destruct (Ascii.eqb x sep) eqn:E.
  - apply Ascii.eqb_eq in E; subst x.
    destruct (split_on sep s) as [|h t] eqn:Es;
      [now elim (split_on_nonempty sep s)|].
    change (join sep ([] :: h :: t)) with ([] ++ sep :: join sep (h :: t)).
    rewrite IH. reflexivity.
  - destruct (split_on sep s) as [|h t] eqn:Es;
      [now elim (split_on_nonempty sep s)|].
    destruct t as [|h' t].
    + simpl in *. rewrite IH. reflexivity.
    + change (join sep ((x :: h) :: h' :: t))
        with (x :: (h ++ sep :: join sep (h' :: t))).
      change (join sep (h :: h' :: t)) with (h ++ sep :: join sep (h' :: t)) in IH.
      rewrite IH. reflexivity.
Qed.

Lemma den_local_re_segs w c c' :
  den local_re w c c' ->
  exists segs, segs <> [] /\
    Forall (fun x => is_run is_lower_alnum x = true) segs /\
    w = "+"%char :: join "."%char segs /\
    c' = (g_local, join "."%char segs) :: c.
Proof.
  intros (p & loc & c1 & -> & [-> ->] & c2 & H & ->).
  assert (c2 = c) as -> by (eapply den_no_groups; [|exact H]; reflexivity).
  destruct H as (x & rest & c3 & -> & Hx & Hr).
  apply den_run in Hx as [Hx _].
  apply iter_dotted in Hr as (_ & segs & Hs & ->).
  exists (x :: segs). rewrite join_cons.
  repeat split; [discriminate|auto].
Qed.

(** The local group of a version match: dot-separated runs of lower-case
    letters and digits, which follow a plus sign at the end of the
    string. *)
Lemma version_match_local (ver : str) (v : caps) :
  re_match version_regexp ver = Some v ->
  group g_local v = None \/
  exists segs front nl,
    segs <> [] /\ Forall (fun x => is_run is_lower_alnum x = true) segs /\
    group g_local v = Some (join "."%char segs) /\
    local_segments v = segs /\
    (nl = [] \/ nl = [newline]) /\
    ver = front ++ "+"%char :: join "."%char segs ++ nl.
Proof.
  intros H. apply re_match_sound in H as (w & nl & -> & Hnl & Hd).
  destruct Hd as (wr & w1 & c1 & -> & Hr & wp & w2 & c2 & -> & Hp
                  & wd & wl & c3 & -> & Hd & Hl).
  assert (H3 : group g_local c3 = None).
  { rewrite (@den_group_other g_local (Opt dev_re) eq_refl _ _ _ Hd).
    rewrite (@den_group_other g_local (Opt pre_re) eq_refl _ _ _ Hp).
    rewrite (@den_group_other g_local release_re eq_refl _ _ _ Hr).
    reflexivity. }
  destruct Hl as [Hl|[-> ->]]; [right|left; exact H3].
  apply den_local_re_segs in Hl as (segs & Hne & Hs & -> & ->).
  exists segs, (wr ++ wp ++ wd), nl.
  split; [exact Hne|]. split; [exact Hs|]. split; [reflexivity|].
  split; [|split; [exact Hnl|]].
  - unfold local_segments. cbn [group g_local Nat.eqb].
    apply split_on_join; [exact Hne|].
    eapply Forall_impl; [|exact Hs]. apply run_no_dot.
  - rewrite <- !app_assoc. reflexivity.
Qed.

Lemma mapped_tag_stage (tag : str) :
  In (Some (canonical_tag tag)) stages /\ canonical_tag tag <> [].
Proof.
  unfold canonical_tag, stages.
  destruct (existsb _ _); [simpl; split; [auto 6|discriminate]|].
  destruct (existsb _ _); simpl; split; auto 6; discriminate.
Qed.

(** What the stage part returns, by the markers that matched. *)
Lemma parse_stage_value (ver : str) (v : caps) (segs : list str) p n md :
  groups_ok ver v segs -> parse_stage ver v = Ok (p, n, md) ->
  md = dev_token v /\
  ((truthy (group g_pre v) = true /\
    exists tag num, group g_pre_l v = Some tag /\ In tag mapped_tags /\
                    group g_pre_n v = Some num /\ is_number num = true /\
                    p = Some (canonical_tag tag) /\ n = decimal num) \/
   (truthy (group g_pre v) = false /\ truthy (group g_dev v) = true /\
    exists num, group g_dev_n v = Some num /\ is_number num = true /\
                p = Some $"dev" /\ n = decimal num) \/
   (truthy (group g_pre v) = false /\ truthy (group g_dev v) = false /\
    p = None /\ n = 0%Z)).
Proof.
  intros (_ & _ & _ & _ & Hp & Hd & _). unfold dev_token.
  apply pre_groups_cases in Hp as [Hp|(Hp & tag & Hl & Ht & Hn)].
  - rewrite Hp. cbn [andb].
    apply dev_groups_cases in Hd as [Hd|(Hd & Hn)].
    + rewrite (parse_stage_none _ _ Hp Hd). intros H; inversion H; subst.
      split; [reflexivity|]. right; right; auto.
    + rewrite (parse_stage_dev _ _ Hp Hd Hn).
      destruct (group g_dev_n v) as [num|] eqn:E; [|discriminate].
      intros H; inversion H; subst.
      split; [reflexivity|]. right; left. repeat split; auto.
      exists num; auto.
  - rewrite (parse_stage_pre _ _ Hp Hl Ht Hn), Hp. cbn [andb].
    destruct (mapped_tag_cases Ht) as [[E Hin]|[E _]]; rewrite E;
      [|discriminate].
    destruct (group g_pre_n v) as [num|] eqn:En; [|discriminate].
    intros H; inversion H; subst.
    split; [reflexivity|]. left. split; [reflexivity|].
    exists tag, num; auto 7.
Qed.

Lemma parse_version_ok (ver : str) (pv : Version) :
  parse_version ver = Ok pv ->
  exists v segs p n md a b c,
    re_match version_regexp ver = Some v /\ groups_ok ver v segs /\
    parse_stage ver v = Ok (p, n, md) /\
    release_fields (map decimal segs) = Ok (a, b, c) /\
    pv = mkVersion a b c p n (md ++ local_segments v).
Proof.
  intros H. destruct (re_match version_regexp ver) as [v|] eqn:Hm;
    [|unfold parse_version in H; rewrite Hm in H; discriminate].
  destruct (version_match_groups _ Hm) as (segs & Hg).
  rewrite (parse_version_match Hm Hg) in H.
  destruct (parse_stage ver v) as [[[p n] md]|e] eqn:Es; [|discriminate].
  cbn [bind] in H.
  destruct (release_fields (map decimal segs)) as [[[a b] c]|e] eqn:Er;
    [|discriminate].
  cbn in H. inversion H; subst. exists v, segs, p, n, md, a, b, c. auto 6.
Qed.

Lemma release_fields_nonneg (segs : list str) a b c :
  Forall (fun w => is_number w = true) segs ->
  release_fields (map decimal segs) = Ok (a, b, c) ->
  (0 <= a /\ 0 <= b /\ 0 <= c)%Z.
Proof.
  intros Hs.
  assert (Hd : Forall (fun w => (0 <= decimal w)%Z) segs).
  { eapply Forall_impl; [|exact Hs]. intros w Hw. apply decimal_nonneg.
    unfold is_number in Hw. apply andb_true_iff in Hw as [_ Hw]. exact Hw. }
  clear Hs. destruct Hd as [|x s1 Hx Hd]; [discriminate|].
  destruct Hd as [|y s2 Hy Hd]; [discriminate|].
  simpl. intros H; inversion H; subst. repeat split; auto.
  destruct Hd as [|z s3 Hz Hd]; [simpl; lia|].
  destruct Hd; simpl; [exact Hz|lia].
Qed.

(** X5: every version that [parse_version] returns has one of the five
    stages none, alpha, beta, rc and dev, non-negative major, minor, patch
    and pre-release number, the number 0 when the stage is none, and no
    empty metadata token. *)
Theorem X5_version_invariant (ver : str) (pv : Version) :
  parse_version ver = Ok pv ->
  In (prerelease pv) stages /\
  (0 <= major pv /\ 0 <= minor pv /\ 0 <= patch pv /\
   0 <= prerelease_no pv)%Z /\
  (prerelease pv = None -> prerelease_no pv = 0%Z) /\
  Forall (fun m => m <> []) (metadata pv).
Proof.
  intros H.
  apply parse_version_ok in H
    as (v & segs & p & n & md & a & b & c & Hm & Hg & Es & Er & ->).
  cbn [prerelease major minor patch prerelease_no metadata].
  pose proof Hg as (_ & Hs & _).
  destruct (release_fields_nonneg Hs Er) as (Ha & Hb & Hc).
  destruct (parse_stage_value Hg Es) as [-> Hcase].
  assert (Hmeta : Forall (fun m : str => m <> []) (dev_token v ++ local_segments v)).
  { apply Forall_app; split.
    - unfold dev_token. destruct (_ && _); constructor; [discriminate|constructor].
    - destruct (version_match_local _ Hm) as [E|(ls & _ & _ & _ & Hl & _ & -> & _)].
      + unfold local_segments; rewrite E; constructor.
      + eapply Forall_impl; [|exact Hl]. intros w; apply run_nonempty. }
  destruct Hcase as [(_ & tag & num & _ & _ & _ & Hnum & -> & ->)
                    |[(_ & _ & num & _ & Hnum & -> & ->)|(_ & _ & -> & ->)]].
  - split; [apply mapped_tag_stage|]. split; [|split; [discriminate|exact Hmeta]].
    repeat split; auto. apply decimal_nonneg.
    unfold is_number in Hnum; apply andb_true_iff in Hnum as [_ Hnum]; exact Hnum.
  - split; [unfold stages; simpl; auto 6|].
    split; [|split; [discriminate|exact Hmeta]].
    repeat split; auto. apply decimal_nonneg.
    unfold is_number in Hnum; apply andb_true_iff in Hnum as [_ Hnum]; exact Hnum.
  - split; [left; reflexivity|].
    split; [|split; [reflexivity|exact Hmeta]].
    repeat split; auto. lia.
Qed.

Lemma X5_version_invariant_witness :
  In (Some $"beta") stages /\ (0 <= 7)%Z.
Proof.
  destruct (@X5_version_invariant $"3.4b7+x"
              (mkVersion 3 4 0 (Some $"beta") 7 [$"x"]) eq_refl)
    as (H1 & (_ & _ & _ & H2) & _).
  split; [exact H1|exact H2].
Defined.

Lemma parse_version_ok_at (ver : str) (v : caps) (pv : Version) :
  re_match version_regexp ver = Some v -> parse_version ver = Ok pv ->
  exists segs p n a b c,
    groups_ok ver v segs /\
    parse_stage ver v = Ok (p, n, dev_token v) /\
    release_fields (map decimal segs) = Ok (a, b, c) /\
    pv = mkVersion a b c p n (dev_token v ++ local_segments v).
Proof.
  intros Hm H.
  apply parse_version_ok in H
    as (v' & segs & p & n & md & a & b & c & Hm' & Hg & Es & Er & ->).
  rewrite Hm in Hm'; inversion Hm'; subst v'.
  destruct (parse_stage_value Hg Es) as [-> _].
  exists segs, p, n, a, b, c. auto.
Qed.

(** X6: on a string that matches the version grammar, the stage of the
    version follows the markers.  With a development marker and no
    pre-release marker, [parse_version] returns exactly when the
    development ordinal is present and the release has two segments or
    more, with stage [dev] and that ordinal as number.  With neither marker
    it returns exactly when the release has two segments or more, with no
    stage and number 0.  With a pre-release marker and no development
    marker it returns exactly when the tag is mapped, the ordinal is
    present and the release has two segments or more, with the canonical
    stage and that ordinal.  In all three cases the metadata are the local
    segments alone. *)
Theorem X6_stage_branches (ver : str) (v : caps) :
  re_match version_regexp ver = Some v ->
  (truthy (group g_pre v) = false -> truthy (group g_dev v) = true ->
   is_ok (parse_version ver)
   = is_some (group g_dev_n v) && (2 <=? length (release_segments v)) /\
   forall pv, parse_version ver = Ok pv ->
     prerelease pv = Some $"dev" /\
     (exists num, group g_dev_n v = Some num /\ is_number num = true /\
                  prerelease_no pv = decimal num) /\
     metadata pv = local_segments v) /\
  (truthy (group g_pre v) = false -> truthy (group g_dev v) = false ->
   is_ok (parse_version ver) = (2 <=? length (release_segments v)) /\
   forall pv, parse_version ver = Ok pv ->
     prerelease pv = None /\ prerelease_no pv = 0%Z /\
     metadata pv = local_segments v) /\
  (truthy (group g_pre v) = true -> truthy (group g_dev v) = false ->
   is_ok (parse_version ver)
   = opt_in (group g_pre_l v) mapped_tags && is_some (group g_pre_n v)
     && (2 <=? length (release_segments v)) /\
   forall pv, parse_version ver = Ok pv ->
     (exists tag num, group g_pre_l v = Some tag /\ In tag mapped_tags /\
                      group g_pre_n v = Some num /\ is_number num = true /\
                      prerelease pv = Some (canonical_tag tag) /\
                      prerelease_no pv = decimal num) /\
     metadata pv = local_segments v).
Proof.
  intros Hm. destruct (version_match_groups _ Hm) as (segs & Hg).
  pose proof (is_ok_parse_version Hm Hg) as Hok.
  rewrite <- (release_segments_ok Hg) in Hok.
  unfold stage_convertible in Hok.
  split; [|split]; intros Hp Hd; rewrite Hp, ?Hd in Hok; (split; [exact Hok|]);
    intros pv Hpv;
    destruct (@parse_version_ok_at _ _ _ Hm Hpv)
      as (segs' & p & n & a & b & c & Hg' & Es & _ & ->);
    destruct (parse_stage_value Hg' Es) as [_ Hcase];
    unfold dev_token; rewrite Hp, Hd; cbn;
    destruct Hcase as [(Hp' & tag & num & Hl & Hin & Hn & Hnum & -> & ->)
                      |[(Hp' & Hd' & num & Hn & Hnum & -> & ->)
                       |(Hp' & Hd' & -> & ->)]];
    try congruence.
  - split; [reflexivity|]. split; [exists num; auto|reflexivity].
  - auto.
  - split; [exists tag, num; auto 7|reflexivity].
Qed.

Lemma X6_stage_branches_witness :
  is_ok (parse_version $"1.2.3.dev4+ab") = true /\
  is_ok (parse_version $"1.2.3.dev") = false /\
  is_ok (parse_version $"1.2+ab.cd") = true.
Proof.
  split; [|split].
  - destruct (@X6_stage_branches $"1.2.3.dev4+ab" _ eq_refl) as (H & _).
    destruct (H eq_refl eq_refl) as [-> _]. reflexivity.
  - destruct (@X6_stage_branches $"1.2.3.dev" _ eq_refl) as (H & _).
    destruct (H eq_refl eq_refl) as [-> _]. reflexivity.
  - destruct (@X6_stage_branches $"1.2+ab.cd" _ eq_refl) as (_ & H & _).
    destruct (H eq_refl eq_refl) as [-> _]. reflexivity.
Defined.

(** X7: the metadata of a returned version are the development token,
    when both markers matched, followed by the pieces of the local part
    split at its dots.  When the string has a local part, it ends the
    string after a plus sign, its pieces are non-empty runs of lower-case
    letters and digits, and joined by dots they give the local part back;
    without a local part there are no local segments. *)
Theorem X7_local_metadata (ver : str) (v : caps) (pv : Version) :
  re_match version_regexp ver = Some v -> parse_version ver = Ok pv ->
  metadata pv = dev_token v ++ local_segments v /\
  (group g_local v = None -> local_segments v = []) /\
  (forall loc, group g_local v = Some loc ->
     join "."%char (local_segments v) = loc /\
     Forall (fun x => is_run is_lower_alnum x = true) (local_segments v) /\
     exists front nl, (nl = [] \/ nl = [newline]) /\
                      ver = front ++ "+"%char :: loc ++ nl).
Proof.
  intros Hm Hpv.
  destruct (@parse_version_ok_at _ _ _ Hm Hpv)
    as (segs & p & n & a & b & c & _ & _ & _ & ->).
  split; [reflexivity|]. split.
  - intros E. unfold local_segments. rewrite E. reflexivity.
  - intros loc E.
    destruct (version_match_local _ Hm)
      as [E'|(ls & front & nl & _ & Hl & E' & Hs & Hnl & ->)]; [congruence|].
    rewrite E in E'; inversion E'; subst loc.
    rewrite Hs. split; [reflexivity|]. split; [exact Hl|].
    exists front, nl. auto.
Qed.

Lemma X7_local_metadata_witness :
  join "."%char [$"ab"; $"c9"] = $"ab.c9".
Proof.
  destruct (@X7_local_metadata $"1.0a1.dev2+ab.c9" _ _ eq_refl eq_refl)
    as (_ & _ & H).
  destruct (H _ eq_refl) as [H1 _]. exact H1.
Defined.

(** ** The loop over the lines *)

Lemma relver_nonempty (pkgver : str) (pv : Version) :
  parse_version (relver_of pkgver) = Ok pv ->
  relver_of pkgver <> [] /\ In "-"%char pkgver.
Proof.
  intros H.
  assert (Hne : relver_of pkgver <> []).
  { intros E. rewrite E in H. discriminate H. }
  split; [exact Hne|].
  destruct (in_dec ascii_dec "-"%char pkgver) as [Hin|Hn]; [exact Hin|].
  exfalso; apply Hne. unfold relver_of, rpartition.
  apply rfind_split_none in Hn. rewrite Hn. reflexivity.
Qed.

Lemma rpartition_parts (pkgver : str) :
  In "-"%char pkgver ->
  pkgver = relver_of pkgver ++ $"-" ++ revver_of pkgver /\
  ~ In "-"%char (revver_of pkgver).
Proof.
  intros Hin. unfold relver_of, revver_of, rpartition.
  destruct (rfind_split "-"%char pkgver) as [[h t]|] eqn:E.
  - apply rfind_split_some in E as [-> Hn]. cbn. auto.
  - apply rfind_split_none in E. contradiction.
Qed.

(** X8: every entry that the loop body produces carries the raw fields of
    its line: its name is the package name, its installref is the package
    name, an equals sign and the raw version-with-revision string, which
    is the version, a hyphen and the revision; the version is not empty and
    the revision has no hyphen. *)
Theorem X8_entry_raw_fields (arch pkgname pkgver : str) (e : entry) :
  snd (index_entry arch pkgname pkgver) = Ok e ->
  name e = pkgname /\
  installref e = pkgname ++ $"=" ++ pkgver /\
  pkgver = version e ++ $"-" ++ revision e /\
  version e <> [] /\ ~ In "-"%char (revision e) /\
  parse_version (version e) = Ok (parsed_version e).
Proof.
  intros He. apply index_entry_ok in He as (pv & Hpv & ->).
  cbn [name installref version revision parsed_version].
  destruct (relver_nonempty _ Hpv) as [Hne Hin].
  destruct (rpartition_parts _ Hin) as [Hparts Hrev].
  repeat split; auto. rewrite <- Hparts. reflexivity.
Qed.

Lemma X8_entry_raw_fields_witness :
  exists e, snd (index_entry $"amd64" $"foo-1" $"1.0-rc1-3") = Ok e /\
            installref e = $"foo-1" ++ $"=" ++ $"1.0-rc1-3".
Proof.
  eexists; split; [reflexivity|].
  apply (@X8_entry_raw_fields $"amd64" $"foo-1" $"1.0-rc1-3"). reflexivity.
Defined.

(** X9: a version-with-revision string without a hyphen, or with nothing
    before its last hyphen, leaves an empty release version, which the
    version grammar rejects: the loop body raises the cannot-parse error for
    the empty string, after printing the diagnostic of the name, if any. *)
Theorem X9_missing_revision (arch pkgname pkgver : str) :
  (~ In "-"%char pkgver -> relver_of pkgver = []) /\
  (relver_of pkgver = [] ->
   index_entry arch pkgname pkgver
   = (fst (split_name pkgname), Raise (cannot_parse []))).
Proof.
  split.
  - intros Hn. unfold relver_of, rpartition.
    apply rfind_split_none in Hn. rewrite Hn. reflexivity.
  - intros E. rewrite index_entry_eq, E. reflexivity.
Qed.

Lemma X9_missing_revision_witness :
  index_entry $"amd64" $"foo" $"1.0"
  = ([], Raise (cannot_parse [])) /\
  index_entry $"amd64" $"foo" $"-7"
  = ([], Raise (cannot_parse [])).
Proof.
  split.
  - apply (proj2 (X9_missing_revision $"amd64" $"foo" $"1.0")).
    apply (proj1 (X9_missing_revision $"amd64" $"foo" $"1.0")).
    vm_compute. intuition discriminate.
  - apply (proj2 (X9_missing_revision $"amd64" $"foo" $"-7")). reflexivity.
Defined.

Lemma then_lines_nil_l (x : list str * result (list entry)) :
  then_lines ([], Ok []) x = x.
Proof. destruct x as [p [es|e]]; reflexivity. Qed.

Lemma then_lines_nil_r (x : list str * result (list entry)) :
  then_lines x ([], Ok []) = x.
Proof.
  destruct x as [p [es|e]]; unfold then_lines; cbn; [|reflexivity].
  rewrite !app_nil_r. reflexivity.
Qed.

Lemma index_lines_cons_blank (line : str) (lines : list str) :
  forallb is_space line = true -> index_lines (line :: lines) = index_lines lines.
Proof. intros H. cbn [index_lines]. rewrite H. reflexivity. Qed.

Lemma index_lines_cons_row (line : str) (lines : list str) :
  forallb is_space line = false ->
  index_lines (line :: lines)
  = match unpack3 (split_on nul line) with
    | Raise e => ([], Raise e)
    | Ok (arch, pkgname, pkgver) =>
        then_lines (fst (index_entry arch pkgname pkgver),
                    e <- snd (index_entry arch pkgname pkgver) ;; Ok [e])
                   (index_lines lines)
    end.
Proof.
  intros H. cbn [index_lines]. rewrite H.
  destruct (unpack3 (split_on nul line)) as [[[arch pkgname] pkgver]|e];
    [|reflexivity].
  destruct (index_entry arch pkgname pkgver) as [printed [e|err]];
    [|reflexivity].
  destruct (index_lines lines) as [printed' [es|err]]; reflexivity.
Qed.

Lemma then_lines_assoc (x y z : list str * result (list entry)) :
  then_lines (then_lines x y) z = then_lines x (then_lines y z).
Proof.
  destruct x as [p1 [e1|r1]], y as [p2 [e2|r2]], z as [p3 [e3|r3]];
    unfold then_lines; cbn; rewrite ?app_assoc; reflexivity.
Qed.

Lemma index_lines_app (l1 l2 : list str) :
  index_lines (l1 ++ l2) = then_lines (index_lines l1) (index_lines l2).
Proof.
  induction l1 as [|line l1 IH].
  - symmetry; apply then_lines_nil_l.
  - rewrite <- app_comm_cons.
    destruct (forallb is_space line) eqn:E.
    + rewrite !index_lines_cons_blank by exact E. exact IH.
    + rewrite !index_lines_cons_row by exact E.
      destruct (unpack3 (split_on nul line)) as [[[arch pkgname] pkgver]|e];
        [|reflexivity].
      rewrite IH. symmetry; apply then_lines_assoc.
Qed.

(** X10: the loop handles the lines in order, and the first exception ends
    the run: the outcome on two runs of lines, one after the other, is the
    outcome on the first when that raises, with nothing printed or indexed
    from the second, and otherwise both outputs and both indexes one after
    the other. *)
Theorem X10_lines_in_order (l1 l2 : list str) :
  index_lines (l1 ++ l2) = then_lines (index_lines l1) (index_lines l2) /\
  (forall e, snd (index_lines l1) = Raise e ->
             index_lines (l1 ++ l2) = index_lines l1) /\
  (forall es1 es2,
     snd (index_lines l1) = Ok es1 -> snd (index_lines l2) = Ok es2 ->
     index_lines (l1 ++ l2)
     = (fst (index_lines l1) ++ fst (index_lines l2), Ok (es1 ++ es2))).
Proof.
  pose proof (index_lines_app l1 l2) as H.
  split; [exact H|]. split.
  - intros e He. rewrite H. unfold then_lines. rewrite He.
    destruct (index_lines l1) as [p r]. cbn in *. congruence.
  - intros es1 es2 H1 H2. rewrite H. unfold then_lines. rewrite H1, H2.
    reflexivity.
Qed.

Lemma X10_lines_in_order_witness :
  index_lines ([$"bad line"] ++ [$"more"]) = index_lines [$"bad line"].
Proof.
  destruct (X10_lines_in_order [$"bad line"] [$"more"]) as (_ & H & _).
  eapply H. reflexivity.
Defined.

Lemma split_on_snoc_sep (sep : ascii) (s : str) :
  split_on sep (s ++ [sep]) = split_on sep s ++ [[]].
Proof.
  induction s as [|x s IH].
  - cbn. rewrite Ascii.eqb_refl. reflexivity.
  - rewrite <- app_comm_cons. cbn [split_on].
    destruct (Ascii.eqb x sep); rewrite IH; [reflexivity|].
    destruct (split_on sep s) as [|h t] eqn:E;
      [now elim (split_on_nonempty sep s)|reflexivity].
Qed.

(** X11: blank lines, made of white space only, change nothing: a listing
    gives the same output and index with a blank line added anywhere, and
    with a newline added at its end; the empty listing gives the empty
    index. *)
Theorem X11_blank_lines :
  (forall (l1 : list str) (line : str) (l2 : list str),
     forallb is_space line = true ->
     index_lines (l1 ++ line :: l2) = index_lines (l1 ++ l2)) /\
  (forall stdout : str,
     build_index (stdout ++ [newline]) = build_index stdout) /\
  build_index [] = ([], Ok []).
Proof.
  split; [|split; [|reflexivity]].
  - intros l1 line l2 H.
    rewrite (index_lines_app l1 (line :: l2)), (index_lines_app l1 l2).
    rewrite (@index_lines_cons_blank line l2 H). reflexivity.
  - intros stdout. unfold build_index. rewrite split_on_snoc_sep.
    rewrite (index_lines_app _ [[]]).
    apply then_lines_nil_r.
Qed.

Lemma X11_blank_lines_witness :
  index_lines ([$"x"] ++ $"  " :: [$"y"]) = index_lines ([$"x"] ++ [$"y"]).
Proof. apply (proj1 X11_blank_lines). reflexivity. Defined.

Lemma length_split_on (sep : ascii) (s : str) :
  length (split_on sep s) = S (count_occ ascii_dec s sep).
Proof.
  induction s as [|x s IH]; [reflexivity|]. cbn [split_on count_occ].
  destruct (Ascii.eqb x sep) eqn:E.
  - apply Ascii.eqb_eq in E; subst x.
    destruct (ascii_dec sep sep); [|congruence]. simpl. rewrite IH. reflexivity.
  - destruct (ascii_dec x sep) as [->|_];
      [rewrite Ascii.eqb_refl in E; discriminate|].
    destruct (split_on sep s); [discriminate IH|exact IH].
Qed.

Lemma unpack3_ok_iff (fields : list str) :
  (exists r, unpack3 fields = Ok r) <-> length fields = 3.
Proof.
  destruct fields as [|a [|b [|c [|d more]]]]; simpl; split;
    try (intros [r H]; discriminate H); try discriminate; eauto.
Qed.

Lemma unpack3_error (fields : list str) :
  length fields <> 3 -> exists msg, unpack3 fields = Raise (ValueError msg).
Proof.
  destruct fields as [|a [|b [|c [|d more]]]]; simpl; intros H; eauto.
  congruence.
Qed.

(** X12: a line that is not blank must consist of exactly three fields
    separated by two NUL characters.  With another number of NUL
    characters the run ends there with a [ValueError] and nothing is
    indexed from that line on; with two, the line is its three fields with
    the NUL characters between them, none of which contains a NUL, and the
    loop body handles them. *)
Theorem X12_three_fields (line : str) (lines : list str) :
  forallb is_space line = false ->
  (count_occ ascii_dec line nul <> 2 ->
   exists msg, index_lines (line :: lines) = ([], Raise (ValueError msg))) /\
  (count_occ ascii_dec line nul = 2 ->
   exists arch pkgname pkgver,
     line = arch ++ nul :: pkgname ++ nul :: pkgver /\
     ~ In nul arch /\ ~ In nul pkgname /\ ~ In nul pkgver /\
     index_lines (line :: lines)
     = then_lines (fst (index_entry arch pkgname pkgver),
                   e <- snd (index_entry arch pkgname pkgver) ;; Ok [e])
                  (index_lines lines)).
Proof.
  intros Hb. rewrite (@index_lines_cons_row line lines Hb).
  pose proof (length_split_on nul line) as Hlen.
  pose proof (join_split_on nul line) as Hjoin.
  pose proof (split_on_no_sep nul line) as Hno.
  split; intros Hc.
  - destruct (@unpack3_error (split_on nul line)) as [msg ->]; [lia|eauto].
  - destruct (split_on nul line) as [|a [|b [|c [|d more]]]];
      simpl in Hlen; try lia.
    exists a, b, c. cbn [unpack3]. cbn in Hjoin.
    split; [symmetry; exact Hjoin|].
    repeat split; try reflexivity; apply Hno; simpl; auto.
Qed.

Lemma X12_three_fields_witness :
  exists msg,
    index_lines ($"amd64 foo 1.0-1" :: [$"more"]) = ([], Raise (ValueError msg)).
Proof.
  apply (proj1 (@X12_three_fields $"amd64 foo 1.0-1" [$"more"] eq_refl)).
  vm_compute. discriminate.
Defined.

Lemma index_entry_fields (arch pkgname pkgver : str) (e : entry) :
  snd (index_entry arch pkgname pkgver) = Ok e ->
  name e = pkgname /\ pkgver = version e ++ $"-" ++ revision e /\
  architecture e = rewrite_arch arch.
Proof.
  intros He. apply index_entry_ok in He as (pv & Hpv & ->).
  cbn [name version revision architecture].
  destruct (relver_nonempty _ Hpv) as [_ Hin].
  destruct (rpartition_parts _ Hin) as [Hparts _]. auto.
Qed.

Lemma line_of_fields (line arch pkgname pkgver : str) :
  unpack3 (split_on nul line) = Ok (arch, pkgname, pkgver) ->
  line = arch ++ nul :: pkgname ++ nul :: pkgver.
Proof.
  intros H. apply unpack3_fields in H.
  rewrite <- (join_split_on nul line) at 1. rewrite H. reflexivity.
Qed.

(** X13: when the run succeeds, the index has one entry for each line that
    is not blank, in the order of the lines; each line is the architecture
    label, the name of its entry and the version, a hyphen and the revision
    of its entry, with NUL characters between them, and the architecture of
    the entry is the rewritten label.  What the run prints are the
    diagnostics of the names of the entries, in that order. *)
Theorem X13_index_rows (lines : list str) (es : list entry) :
  snd (index_lines lines) = Ok es ->
  Forall2 (fun line e => exists arch,
             line = line_of arch e /\ architecture e = rewrite_arch arch)
          (rows lines) es /\
  fst (index_lines lines)
  = concat (map (fun e => fst (split_name (name e))) es).
Proof.
  revert es; induction lines as [|line lines IH]; intros es.
  - cbn. intros H; inversion H. split; [constructor|reflexivity].
  - unfold rows. cbn [filter].
    destruct (forallb is_space line) eqn:Hb.
    + rewrite (@index_lines_cons_blank line lines Hb). cbn [negb]. apply IH.
    + cbn [negb]. rewrite (@index_lines_cons_row line lines Hb).
      destruct (unpack3 (split_on nul line)) as [[[arch pkgname] pkgver]|err]
        eqn:Eu; [|discriminate].
      pose proof (index_entry_eq arch pkgname pkgver) as Heq.
      destruct (index_entry arch pkgname pkgver) as [printed [e|err]] eqn:Ee;
        [|discriminate].
      destruct (index_lines lines) as [printed' [es'|err]]; [|discriminate].
      unfold then_lines; cbn. intros H; inversion H; subst es.
      destruct (IH es' eq_refl) as [IH1 IH2]. cbn in IH2.
      destruct (@index_entry_fields arch pkgname pkgver e) as (Hn & Hv & Ha);
        [rewrite Ee; reflexivity|].
      split.
      * constructor; [|exact IH1]. exists arch. split; [|exact Ha].
        unfold line_of. rewrite Hn, <- Hv. apply line_of_fields; exact Eu.
      * cbn [map concat]. rewrite <- IH2, Hn. f_equal.
        inversion Heq; reflexivity.
Qed.

Lemma X13_index_rows_witness :
  fst (index_lines [$"amd64" ++ nul :: $"a.b" ++ nul :: $"1.0-1"])
  = [$"cannot parse package name: a.b"].
Proof.
  rewrite (proj2 (@X13_index_rows
                    [$"amd64" ++ nul :: $"a.b" ++ nul :: $"1.0-1"] _ eq_refl)).
  reflexivity.
Defined.

(** ** Names that are always parsed *)

Lemma consumed_all (s : str) : consumed s [] = s.
Proof. rewrite <- (app_nil_r s) at 1. apply consumed_app. Qed.

Lemma exec_slot_re_number A (n : str) c (k : cont A) a :
  is_number n = true -> k [] c = Some a -> exec slot_re n c k = Some a.
Proof.
  intros Hn Hk. unfold slot_re.
  rewrite <- (app_nil_r n).
  change (exec (Plus (Chars is_digit)) (n ++ []) c
            (fun s1 c1 =>
               exec (Cat (Opt (Cat (Lit $"-")
                            (Cat (Alt (Lit $"alpha") (Alt (Lit $"beta") (Lit $"rc")))
                                 (Plus (Chars is_digit)))))
                         (Opt (Cat (Lit $"-dev") (Plus (Chars is_digit)))))
                    s1 c1 k) = Some a).
  apply exec_plus_chars; [exact Hn|].
  rewrite exec_star_chars_stop by exact I. cbn. exact Hk.
Qed.

Lemma re_match_plain_name (w t : str) (m : caps) :
  is_run is_word w = true -> stops is_word t ->
  exec (Opt (Cat (Lit $"-") (Group 2 slot_re))) t [(1, w)]
       (fun s' c' => if at_end s' then Some c' else None) = Some m ->
  re_match slot_regexp (w ++ t) = Some m.
Proof.
  intros Hw Ht Hm. unfold re_match, slot_regexp, basename_re.
  change (exec (Plus (Chars is_word)) (w ++ t) []
            (fun s2 c2 =>
               exec (StarLazy (Cat (Lit $"-") (Star (Chars is_alpha)))) s2 c2
                 (fun s' c' =>
                    exec (Opt (Cat (Lit $"-") (Group 2 slot_re))) s'
                      (set_group 1 (consumed (w ++ t) s') c')
                      (fun s' c' => if at_end s' then Some c' else None)))
          = Some m).
  apply exec_plus_chars; [exact Hw|].
  rewrite exec_star_chars_stop by exact Ht.
  rewrite exec_star_lazy, consumed_app. unfold set_group. rewrite Hm.
  reflexivity.
Qed.

(** ** Every name of the grammar is split into its basename and slot *)

Lemma alpha_not_digit (x : ascii) : is_alpha x = true -> is_digit x = false.
Proof.
  unfold is_alpha, is_lower, is_upper, is_digit, in_range. intros H.
  apply andb_false_iff.
  apply orb_true_iff in H as [H|H]; apply andb_true_iff in H as [H1 H2];
    apply Nat.leb_le in H1, H2; right; apply Nat.leb_gt; lia.
Qed.

Lemma stops_hyphen (p : ascii -> bool) (s : str) :
  p "-"%char = false -> stops p ("-"%char :: s).
Proof. intros H; exact H. Qed.

Section SlotExec.
Variable A : Type.
Implicit Types (k : cont A) (s : str) (c : caps).

Lemma exec_devnum_opt devp c k a :
  (devp = [] \/ exists m, is_number m = true /\ devp = $"-dev" ++ m) ->
  k [] c = Some a -> exec (Opt devnum_re) devp c k = Some a.
Proof.
  intros [->|(m & Hm & ->)] Hk.
  - cbn. exact Hk.
  - change (orelse (exec (Plus (Chars is_digit)) m c k)
                   (k ($"-dev" ++ m) c) = Some a).
    rewrite <- (app_nil_r m) at 1.
    rewrite (@exec_plus_chars A is_digit m [] c k a Hm); [reflexivity|].
    rewrite exec_star_chars_stop by exact I. exact Hk.
Qed.

Lemma stops_devp devp :
  (devp = [] \/ exists m, is_number m = true /\ devp = $"-dev" ++ m) ->
  stops is_digit devp.
Proof. intros [->|(m & _ & ->)]; [exact I|reflexivity]. Qed.

Lemma exec_stage_opt stage devp c k a :
  (stage = [] \/
   exists t m, In t [$"alpha"; $"beta"; $"rc"] /\ is_number m = true /\
               stage = $"-" ++ t ++ m) ->
  (devp = [] \/ exists m, is_number m = true /\ devp = $"-dev" ++ m) ->
  k devp c = Some a ->
  exec (Opt stage_re) (stage ++ devp) c k = Some a.
Proof.
  intros [->|(t & m & Ht & Hm & ->)] Hd Hk.
  - destruct Hd as [->|(m & _ & ->)]; cbn; exact Hk.
  - assert (Hnum : exec (Plus (Chars is_digit)) (m ++ devp) c k = Some a).
    { apply exec_plus_chars; [exact Hm|].
      rewrite exec_star_chars_stop by (apply stops_devp; exact Hd). exact Hk. }
    cbn [In] in Ht. destruct Ht as [<-|[<-|[<-|[]]]].
    + change (orelse
                (orelse (exec (Plus (Chars is_digit)) (m ++ devp) c k)
                   (exec (Alt (Lit $"beta") (Lit $"rc"))
                      ($"alpha" ++ m ++ devp) c
                      (fun s1 c1 => exec (Plus (Chars is_digit)) s1 c1 k)))
                (k (($"-" ++ $"alpha" ++ m) ++ devp) c) = Some a).
      rewrite Hnum. reflexivity.
    + change (orelse
                (orelse (exec (Plus (Chars is_digit)) (m ++ devp) c k) None)
                (k (($"-" ++ $"beta" ++ m) ++ devp) c) = Some a).
      rewrite Hnum. reflexivity.
    + change (orelse
                (exec (Plus (Chars is_digit)) (m ++ devp) c k)
                (k (($"-" ++ $"rc" ++ m) ++ devp) c) = Some a).
      rewrite Hnum. reflexivity.
Qed.
End SlotExec.

Lemma exec_slot_re A (sl : str) c (k : cont A) a :
  slot_string sl -> k [] c = Some a -> exec slot_re sl c k = Some a.
Proof.
  intros (n & stage & devp & Hn & Hs & Hd & ->) Hk.
  change (exec (Plus (Chars is_digit)) (n ++ stage ++ devp) c
            (fun s1 c1 =>
               exec (Opt stage_re) s1 c1
                 (fun s2 c2 => exec (Opt devnum_re) s2 c2 k)) = Some a).
  apply exec_plus_chars; [exact Hn|].
  assert (Hstop : stops is_digit (stage ++ devp)).
  { destruct Hs as [->|(t & m & _ & _ & ->)]; [|reflexivity].
    apply stops_devp; exact Hd. }
  rewrite exec_star_chars_stop by exact Hstop.
  apply exec_stage_opt; [exact Hs|exact Hd|].
  apply exec_devnum_opt; [exact Hd|exact Hk].
Qed.

(** What follows a basename in a match: nothing, or a hyphen and a slot. *)
Lemma exec_suffix_none (w : str) :
  exec (Opt (Cat (Lit $"-") (Group 2 slot_re))) [] [(1, w)]
       (fun s' c' => if at_end s' then Some c' else None)
  = Some [(1, w)].
Proof. reflexivity. Qed.

Lemma exec_suffix_slot (w sl : str) :
  slot_string sl ->
  exec (Opt (Cat (Lit $"-") (Group 2 slot_re))) ("-"%char :: sl) [(1, w)]
       (fun s' c' => if at_end s' then Some c' else None)
  = Some [(2, sl); (1, w)].
Proof.
  intros Hs.
  change (orelse
            (exec slot_re sl [(1, w)]
               (fun s' c' =>
                  (if at_end s'
                   then Some (set_group 2 (consumed sl s') c') else None)))
            (if at_end ("-"%char :: sl) then Some [(1, w)] else None)
          = Some [(2, sl); (1, w)]).
  rewrite (@exec_slot_re caps sl [(1, w)] _ [(2, sl); (1, w)] Hs);
    [reflexivity|].
  cbn. rewrite consumed_all. reflexivity.
Qed.

(** In the middle of a basename nothing can end the match: after the
    hyphen comes no digit. *)
Lemma exec_suffix_mid (r : str) (c : caps) :
  stops is_digit r ->
  exec (Opt (Cat (Lit $"-") (Group 2 slot_re))) ("-"%char :: r) c
       (fun s' c' => if at_end s' then Some c' else None)
  = None.
Proof.
  intros Hr.
  change (orelse
            (exec slot_re r c
               (fun s' c' =>
                  (if at_end s'
                   then Some (set_group 2 (consumed r s') c') else None)))
            (if at_end ("-"%char :: r) then Some c else None) = None).
  assert (exec slot_re r c
            (fun s' c' =>
               (if at_end s'
                then Some (set_group 2 (consumed r s') c') else None)) = None)
    as ->.
  { destruct r as [|x r]; [reflexivity|]. cbn in Hr.
    cbn [slot_re Plus exec]. rewrite Hr. reflexivity. }
  destruct r; reflexivity.
Qed.

Lemma stops_parts (p : ascii -> bool) (parts : list str) (t : str) :
  p "-"%char = false -> (t = [] \/ exists sl, t = "-"%char :: sl) ->
  stops p (concat (map (cons "-"%char) parts) ++ t).
Proof.
  intros Hp Ht. destruct parts as [|x parts]; [|exact Hp].
  destruct Ht as [->|[sl ->]]; [exact I|exact Hp].
Qed.

Lemma stops_alpha_part (part rest : str) :
  forallb is_alpha part = true -> stops is_digit rest ->
  stops is_digit (part ++ rest).
Proof.
  destruct part as [|x part]; [auto|]. cbn [forallb List.app stops].
  intros H _. apply andb_true_iff in H as [Hx _].
  apply alpha_not_digit; exact Hx.
Qed.

Lemma exec_lazy_parts A (parts : list str) (t : str) c (k : cont A) a :
  Forall (fun x => forallb is_alpha x = true) parts ->
  (t = [] \/ exists sl, t = "-"%char :: sl) ->
  (forall r, stops is_digit r -> k ("-"%char :: r) c = None) ->
  k t c = Some a ->
  exec (StarLazy (Cat (Lit $"-") (Star (Chars is_alpha))))
       (concat (map (cons "-"%char) parts) ++ t) c k = Some a.
Proof.
  intros Hp Ht Hmid Hk. induction Hp as [|part parts Hpart _ IH].
  - rewrite exec_star_lazy. cbn [map concat List.app]. rewrite Hk. reflexivity.
  - rewrite exec_star_lazy. cbn [map concat].
    rewrite <- !app_assoc, <- app_comm_cons.
    set (rest := concat (map (cons "-"%char) parts) ++ t) in *.
    assert (Hrest : stops is_digit rest)
      by (apply stops_parts; [reflexivity|exact Ht]).
    rewrite Hmid by (apply stops_alpha_part; assumption).
    cbn [orelse].
    set (K := progress _ _).
    change (exec (Star (Chars is_alpha)) (part ++ rest) c K = Some a).
    apply exec_star_chars; [exact Hpart|].
    rewrite exec_star_chars_stop
      by (apply stops_parts; [reflexivity|exact Ht]).
    unfold K, progress.
    replace (length rest <? length ("-"%char :: part ++ rest)) with true
      by (symmetry; apply Nat.ltb_lt; simpl; rewrite length_app; lia).
    exact IH.
Qed.

Lemma re_match_name (w : str) (parts : list str) (t : str) (m : caps) :
  is_run is_word w = true ->
  Forall (fun x => forallb is_alpha x = true) parts ->
  (t = [] \/ exists sl, t = "-"%char :: sl) ->
  exec (Opt (Cat (Lit $"-") (Group 2 slot_re))) t
       [(1, w ++ concat (map (cons "-"%char) parts))]
       (fun s' c' => if at_end s' then Some c' else None) = Some m ->
  re_match slot_regexp ((w ++ concat (map (cons "-"%char) parts)) ++ t)
  = Some m.
Proof.
  intros Hw Hp Ht Hm. unfold re_match, slot_regexp, basename_re.
  set (b := w ++ concat (map (cons "-"%char) parts)) in *.
  change (exec (Plus (Chars is_word)) (b ++ t) []
            (fun s2 c2 =>
               exec (StarLazy (Cat (Lit $"-") (Star (Chars is_alpha)))) s2 c2
                 (fun s' c' =>
                    exec (Opt (Cat (Lit $"-") (Group 2 slot_re))) s'
                      (set_group 1 (consumed (b ++ t) s') c')
                      (fun s' c' => if at_end s' then Some c' else None)))
          = Some m).
  unfold b at 1. rewrite <- app_assoc.
  apply exec_plus_chars; [exact Hw|].
  rewrite exec_star_chars_stop by (apply stops_parts; [reflexivity|exact Ht]).
  apply exec_lazy_parts; [exact Hp|exact Ht| |].
  - intros r Hr. apply exec_suffix_mid; exact Hr.
  - rewrite consumed_app. exact Hm.
Qed.

(** X14: every name of the name grammar is split into its own parts: a
    basename on its own is returned whole with no slot, and a basename
    followed by a hyphen and a slot is returned as that basename and that
    slot; nothing is printed. *)
Theorem X14_name_split (b sl : str) :
  basename_string b ->
  split_name b = ([], (Some b, None)) /\
  (slot_string sl ->
   split_name (b ++ "-"%char :: sl) = ([], (Some b, Some sl))).
Proof.
  intros (w & parts & Hw & Hp & ->). split.
  - unfold split_name.
    rewrite <- (app_nil_r (w ++ concat (map (cons "-"%char) parts))) at 1.
    rewrite (@re_match_name w parts [] _ Hw Hp (or_introl eq_refl)
               (exec_suffix_none _)).
    reflexivity.
  - intros Hs. unfold split_name.
    rewrite (@re_match_name w parts ("-"%char :: sl) _ Hw Hp
               (or_intror (ex_intro _ sl eq_refl))
               (exec_suffix_slot _ Hs)).
    reflexivity.
Qed.

Lemma X14_name_split_witness :
  split_name $"foo-bar-12-rc3-dev4"
  = ([], (Some $"foo-bar", Some $"12-rc3-dev4")).
Proof.
  assert (Hb : basename_string $"foo-bar").
  { exists $"foo", [$"bar"]. split; [reflexivity|].
    split; [repeat constructor|reflexivity]. }
  apply (proj2 (@X14_name_split $"foo-bar" $"12-rc3-dev4" Hb)).
  exists $"12", $"-rc3", $"-dev4". split; [reflexivity|]. split.
  - right. exists $"rc", $"3". simpl; auto.
  - split; [|reflexivity]. right. exists $"4". auto.
Defined.
